(** * rlnjs: the membership registry and the RLN protocol core

    A shallow embedding of [src/registry/index.ts] (class [Registry]) and
    [src/rln.ts] (class [RLN]).

    - JS [bigint] values are [Z]; [number] indices and depths are [Z].
    - A [throw] is the [Err] branch of [result]; an [async] method is a
      function on the state it reads and writes, cut at its [await]s.
    - Collaborators whose code is not part of the two files (the field
      object [Fq], the incremental Merkle tree, Poseidon, Keccak, the
      Groth16 backend) are either section variables or small reference
      models introduced by a comment that says where they come from. *)

From Stdlib Require Import ZArith Zcong Lia.
From Stdlib.Strings Require Import Byte Ascii String.
From stdpp Require Import base list strings.

#[local] Open Scope Z_scope.

(** ** Failures *)

(** What a call can throw. [Error] is the source's own [throw new Error(msg)];
    [TypeError] is what the JS runtime raises when a property of [undefined]
    is read or [undefined] is called, [SyntaxError] what [BigInt] raises on
    a string that is no number.  The remaining constructors are the
    failure classes the specification names for the collaborators. *)
Inductive error : Type :=
| Error (msg : string)
| TypeError
| SyntaxError
| DivisionByZero
| OutOfRange
| CapacityExceeded
| NotInitialized.

Inductive result (A : Type) : Type :=
| Ok (a : A)
| Err (e : error).
Arguments Ok {A} a.
Arguments Err {A} e.

#[global] Instance result_ret : MRet result := fun A a => Ok a.

#[global] Instance result_bind : MBind result := fun A B k r =>
  match r with
  | Ok a => k a
  | Err e => Err e
  end.

(** The message of the constructor's guard, [registry/index.ts] line 19; the
    specification files this failure under InvalidConfiguration. *)
Definition InvalidConfiguration : error :=
  Error "The tree depth must be between 16 and 32".

(** ** Field arithmetic *)

Module Fq.
Section Field.

(** The scalar field prime. *)
Variable p : Z.

(** Modelled from the spec: [Fq.normalize] of the absent [utils] module;
    maps any integer, negative ones included, to its canonical
    representative in [0, p). *)
Definition normalize (a : Z) : Z := a mod p.

(** Modelled from the spec: [Fq.add], result re-normalized into [0, p). *)
Definition add (a b : Z) : Z := normalize (a + b).

(** Modelled from the spec: [Fq.sub], result re-normalized into [0, p). *)
Definition sub (a b : Z) : Z := normalize (a - b).

(** Modelled from the spec: [Fq.mul], result re-normalized into [0, p). *)
Definition mul (a b : Z) : Z := normalize (a * b).

(** Modelled from the spec: [Fq.div] computes [a * b^-1 mod p] and fails
    with DivisionByZero when [b] is congruent to 0, where no inverse
    exists.  The inverse is the one extended Euclid finds. *)
Definition div (a b : Z) : result Z :=
  if b mod p =? 0 then Err DivisionByZero
  else Ok (normalize (a * Z.invmod b p)).

End Field.
End Fq.

(** ** The incremental Merkle tree the registry wraps *)

Module IncrementalMerkleTree.

(** Modelled from the spec: the tree collaborator
    ([@zk-kit/incremental-merkle-tree], not part of the repository's
    sources).  It owns a fixed-capacity sequence of leaf slots; [leaves]
    is the occupied prefix in index order and every slot beyond it still
    holds the zero value. *)
Record t : Type := mk {
  hash : list Z -> Z;
  depth : Z;
  zeroValue : Z;
  arity : Z;
  leaves : list Z
}.

(** Modelled from the spec: construction builds an empty tree. *)
Definition new (hash : list Z -> Z) (depth zeroValue arity : Z) : t :=
  mk hash depth zeroValue arity [].

(** Modelled from the spec: capacity [2^depth] for the binary tree. *)
Definition capacity (tr : t) : Z := arity tr ^ depth tr.

(** Modelled from the spec: the zero value of each level, lowest first;
    [zeroes[0]] is the leaf zero value. *)
Fixpoint zeroes_from (h : list Z -> Z) (n : nat) (z : Z) : list Z :=
  match n with
  | O => []
  | S n' => z :: zeroes_from h n' (h [z; z])
  end.

Definition zeroes (tr : t) : list Z :=
  zeroes_from (hash tr) (Z.to_nat (depth tr)) (zeroValue tr).

(** One level up: neighbours are hashed in pairs, a missing right
    neighbour being the level's zero value. *)
Fixpoint hash_level (h : list Z -> Z) (z : Z) (nodes : list Z) : list Z :=
  match nodes with
  | [] => []
  | [a] => [h [a; z]]
  | a :: b :: rest => h [a; b] :: hash_level h z rest
  end.

Fixpoint root_from (h : list Z -> Z) (n : nat) (z : Z) (nodes : list Z) : Z :=
  match n with
  | O => hd z nodes
  | S n' => root_from h n' (h [z; z]) (hash_level h z nodes)
  end.

(** Modelled from the spec: the root is a pure function of the leaf
    sequence. *)
Definition root (tr : t) : Z :=
  root_from (hash tr) (Z.to_nat (depth tr)) (zeroValue tr) (leaves tr).

(** The value held by slot [i], occupied or not. *)
Definition leaf_at (tr : t) (i : Z) : Z :=
  if (0 <=? i) && (i <? Z.of_nat (length (leaves tr)))
  then default (zeroValue tr) (leaves tr !! Z.to_nat i)
  else zeroValue tr.

Fixpoint index_from (m : Z) (l : list Z) (i : Z) : Z :=
  match l with
  | [] => -1
  | x :: l' => if x =? m then i else index_from m l' (i + 1)
  end.

(** Modelled from the spec: linear search for the first slot equal to
    [member]; -1 is the not-found sentinel. *)
Definition indexOf (tr : t) (member : Z) : Z := index_from member (leaves tr) 0.

Definition with_leaves (tr : t) (l : list Z) : t :=
  mk (hash tr) (depth tr) (zeroValue tr) (arity tr) l.

(** Modelled from the spec: appends at the next unused index and fails
    with CapacityExceeded when no unused index remains. *)
Definition insert (tr : t) (leaf : Z) : result t :=
  if capacity tr <=? Z.of_nat (length (leaves tr))
  then Err CapacityExceeded
  else Ok (with_leaves tr (leaves tr ++ [leaf])).

(** Modelled from the spec: fails with OutOfRange when [index] is outside
    the occupied range, otherwise resets that slot to the zero value. *)
Definition delete (tr : t) (index : Z) : result t :=
  if (0 <=? index) && (index <? Z.of_nat (length (leaves tr)))
  then Ok (with_leaves tr (<[Z.to_nat index := zeroValue tr]> (leaves tr)))
  else Err OutOfRange.

End IncrementalMerkleTree.

(** ** The membership registry, [src/registry/index.ts] *)

Module Registry.

Module IMT := IncrementalMerkleTree.

(** The three private fields.  [_merkleTree] is [undefined] ([None]) from
    the constructor until [init] has run. *)
Record t : Type := mk {
  _merkleTree : option IMT.t;
  _treeDepth : Z;
  _zeroValue : Z
}.

(** [constructor(treeDepth = 20, zeroValue = BigInt(0))]; an omitted
    argument is [None]. *)
Definition constructor (treeDepth : option Z) (zeroValue : option Z) : result t :=
  let treeDepth := default 20 treeDepth in
  let zeroValue := default 0 zeroValue in
  if (treeDepth <? 16) || (treeDepth >? 32)
  then Err (Error "The tree depth must be between 16 and 32")
  else Ok (mk None treeDepth zeroValue).

(** Reading a property of [this._merkleTree]. *)
Definition tree (r : t) : result IMT.t :=
  match _merkleTree r with
  | Some tr => Ok tr
  | None => Err TypeError
  end.

Definition root (r : t) : result Z := tr ← tree r; Ok (IMT.root tr).

Definition depth (r : t) : result Z := tr ← tree r; Ok (IMT.depth tr).

(** [this._merkleTree.zeroes[0]]; an index past the end of a JS array
    reads [undefined], here [None]. *)
Definition zeroValue (r : t) : result (option Z) :=
  tr ← tree r; Ok (IMT.zeroes tr !! 0%nat).

Definition members (r : t) : result (list Z) := tr ← tree r; Ok (IMT.leaves tr).

(** [init]: once [await buildPoseidon()] has resolved to [poseidon], the
    tree is built and assigned. *)
Definition init (poseidon : list Z -> Z) (r : t) : t :=
  mk (Some (IMT.new poseidon (_treeDepth r) (_zeroValue r) 2))
     (_treeDepth r) (_zeroValue r).

Definition indexOf (r : t) (member : Z) : result Z :=
  tr ← tree r; Ok (IMT.indexOf tr member).

Definition set_tree (r : t) (tr : IMT.t) : t :=
  mk (Some tr) (_treeDepth r) (_zeroValue r).

(** The mutators change the registry in place; a call that throws leaves
    it as it was.  The result pairs the registry after the call with the
    outcome. *)
Definition addMember (r : t) (identityCommitment : Z) : t * result () :=
  match tr ← tree r; IMT.insert tr identityCommitment with
  | Ok tr' => (set_tree r tr', Ok ())
  | Err e => (r, Err e)
  end.

(** The [for ... of] loop: the first failing insertion stops it, the
    earlier ones stay. *)
Fixpoint addMembers (r : t) (identityCommitments : list Z) : t * result () :=
  match identityCommitments with
  | [] => (r, Ok ())
  | identityCommitment :: rest =>
      match addMember r identityCommitment with
      | (r', Ok _) => addMembers r' rest
      | (r', Err e) => (r', Err e)
      end
  end.

Definition removeMember (r : t) (index : Z) : t * result () :=
  match tr ← tree r; IMT.delete tr index with
  | Ok tr' => (set_tree r tr', Ok ())
  | Err e => (r, Err e)
  end.

(** A registry that holds a tree of capacity [2^d] all of whose leaf slots
    read [z]. *)
Definition holds_empty_tree (r : t) (d z : Z) : Prop :=
  exists tr, _merkleTree r = Some tr
    /\ IMT.capacity tr = 2 ^ d
    /\ forall i, 0 <= i < 2 ^ d -> IMT.leaf_at tr i = z.

End Registry.

(** ** A registry as its callers reach it *)

(** A caller of the compiled class reaches a registry by name: it reads
    [registry[name]] and calls [registry[name](...args)].  Each name the
    class declares resolves to the embedding of its declaration above; a
    name it does not declare resolves along the prototype chain, and past
    [Object.prototype] to [undefined]. *)
Module RegistryObject.

(** The five methods of the class. *)
Inductive method : Type :=
| Init
| IndexOf
| AddMember
| AddMembers
| RemoveMember.

(** What a read or a call yields: [undefined], a [number], a [bigint], an
    array of members, one of the methods, or the tree object held by
    [_merkleTree]. *)
Inductive value : Type :=
| VUndefined
| VNumber (n : Z)
| VBigInt (z : Z)
| VArray (l : list Z)
| VFunction (m : method)
| VTree (tr : IncrementalMerkleTree.t).

Definition method_named (name : string) : option method :=
  if (name =? "init")%string then Some Init
  else if (name =? "indexOf")%string then Some IndexOf
  else if (name =? "addMember")%string then Some AddMember
  else if (name =? "addMembers")%string then Some AddMembers
  else if (name =? "removeMember")%string then Some RemoveMember
  else None.

(** The names every object inherits from [Object.prototype]; what they
    resolve to is not part of the class and is left out ([None] below). *)
Definition inherited (name : string) : bool :=
  existsb (String.eqb name)
    ["constructor"; "hasOwnProperty"; "isPrototypeOf"; "propertyIsEnumerable";
     "toLocaleString"; "toString"; "valueOf"; "__proto__";
     "__defineGetter__"; "__defineSetter__"; "__lookupGetter__";
     "__lookupSetter__"].

(** [registry[name]]: the four accessors run their getters, the methods
    and the three fields are read as they are, any other name that is not
    inherited is [undefined]. *)
Definition get (r : Registry.t) (name : string) : option (result value) :=
  if (name =? "root")%string then Some (v ← Registry.root r; Ok (VBigInt v))
  else if (name =? "depth")%string then Some (v ← Registry.depth r; Ok (VNumber v))
  else if (name =? "zeroValue")%string then
    Some (v ← Registry.zeroValue r; Ok (from_option VBigInt VUndefined v))
  else if (name =? "members")%string then
    Some (v ← Registry.members r; Ok (VArray v))
  else if (name =? "_merkleTree")%string then
    Some (Ok (from_option VTree VUndefined (Registry._merkleTree r)))
  else if (name =? "_treeDepth")%string then Some (Ok (VNumber (Registry._treeDepth r)))
  else if (name =? "_zeroValue")%string then Some (Ok (VBigInt (Registry._zeroValue r)))
  else match method_named name with
       | Some m => Some (Ok (VFunction m))
       | None => if inherited name then None else Some (Ok VUndefined)
       end.

(** A method that returns nothing. *)
Definition returns_nothing (c : Registry.t * result ()) : Registry.t * result value :=
  (c.1, _ ← c.2; Ok VUndefined).

(** A method of the class applied to arguments of the types it declares;
    further arguments are ignored, and a call with other arguments is left
    out ([None]). *)
Definition run (poseidon : list Z -> Z) (r : Registry.t) (m : method)
    (args : list value) : option (Registry.t * result value) :=
  match m, args with
  | Init, _ => Some (Registry.init poseidon r, Ok VUndefined)
  | IndexOf, VBigInt member :: _ =>
      Some (r, i ← Registry.indexOf r member; Ok (VNumber i))
  | AddMember, VBigInt identityCommitment :: _ =>
      Some (returns_nothing (Registry.addMember r identityCommitment))
  | AddMembers, VArray identityCommitments :: _ =>
      Some (returns_nothing (Registry.addMembers r identityCommitments))
  | RemoveMember, VNumber index :: _ =>
      Some (returns_nothing (Registry.removeMember r index))
  | _, _ => None
  end.

(** [registry[name](...args)].  A name that resolves to a method runs it;
    an accessor, a field and an undeclared name resolve to something that
    is no function (or throw while resolving), and calling it throws a
    TypeError. *)
Definition call (poseidon : list Z -> Z) (r : Registry.t) (name : string)
    (args : list value) : option (Registry.t * result value) :=
  match method_named name with
  | Some m => run poseidon r m args
  | None => if inherited name then None else Some (r, Err TypeError)
  end.

End RegistryObject.


(** ** Hexadecimal strings *)

(** The byte strings of [@ethersproject] travel as [0x]-prefixed lower-case
    hexadecimal text; [BigInt] reads such text back as a number. *)
Module Hex.

Definition byte_value (b : byte) : Z := Z.of_N (Byte.to_N b).

Definition digit (n : Z) : ascii :=
  match n with
  | 0 => "0" | 1 => "1" | 2 => "2" | 3 => "3"
  | 4 => "4" | 5 => "5" | 6 => "6" | 7 => "7"
  | 8 => "8" | 9 => "9" | 10 => "a" | 11 => "b"
  | 12 => "c" | 13 => "d" | 14 => "e" | _ => "f"
  end%char.

Definition digit_value (c : ascii) : option Z :=
  let n := Z.of_N (N_of_ascii c) in
  if (48 <=? n) && (n <=? 57) then Some (n - 48)
  else if (97 <=? n) && (n <=? 102) then Some (n - 87)
  else if (65 <=? n) && (n <=? 70) then Some (n - 55)
  else None.

Fixpoint digits (bs : list byte) : string :=
  match bs with
  | [] => EmptyString
  | b :: bs' =>
      String (digit (byte_value b / 16))
        (String (digit (byte_value b mod 16)) (digits bs'))
  end.

(** [hexlify(bytes)]. *)
Definition hexlify (bs : list byte) : string :=
  String "0" (String "x" (digits bs)).

Fixpoint parse_bytes (s : string) : option (list byte) :=
  match s with
  | EmptyString => Some []
  | String hi (String lo rest) =>
      h ← digit_value hi;
      l ← digit_value lo;
      b ← Byte.of_N (Z.to_N (16 * h + l));
      bs ← parse_bytes rest;
      Some (b :: bs)
  | String _ EmptyString => None
  end.

(** [arrayify(hexString)]: the bytes a hex string stands for. *)
Definition arrayify (s : string) : result (list byte) :=
  match s with
  | String "0" (String "x" rest) =>
      match parse_bytes rest with
      | Some bs => Ok bs
      | None => Err (Error "invalid arrayify value")
      end
  | _ => Err (Error "invalid arrayify value")
  end.

Fixpoint parse_number (s : string) (acc : Z) : option Z :=
  match s with
  | EmptyString => Some acc
  | String c rest => d ← digit_value c; parse_number rest (16 * acc + d)
  end.

(** [BigInt(hexString)] on the [0x]-prefixed texts the protocol passes. *)
Definition BigInt (s : string) : result Z :=
  match s with
  | String "0" (String "x" (String c rest)) =>
      match parse_number (String c rest) 0 with
      | Some n => Ok n
      | None => Err SyntaxError
      end
  | _ => Err SyntaxError
  end.

(** A byte sequence read as a big-endian integer. *)
Definition big_endian (bs : list byte) : Z :=
  fold_left (fun acc b => 256 * acc + byte_value b) bs 0.

End Hex.

(** ** The protocol core, [src/rln.ts] *)

(** Modelled from the spec: the scalar field prime of the proving system's
    curve, the constant the absent [utils] module builds [Fq] from (Groth16
    in snarkjs runs over BN254). *)
Definition SNARK_FIELD_SIZE : Z :=
  21888242871839275222246405745257275088548364400416034343698204186575808495617.

Module RLN.

(** [StrBigInt = string | bigint]. *)
Inductive StrBigInt : Type :=
| Str (s : string)
| Big (z : Z).

(** The fields of a [MerkleProof] of the tree library. *)
Record MerkleProof : Type := mkMerkleProof {
  root : Z;
  leaf : Z;
  siblings : list Z;
  pathIndices : list Z
}.

(** The object literal [genWitness] returns. *)
Record Witness : Type := mkWitness {
  identity_secret : Z;
  path_elements : list Z;
  identity_path_index : list Z;
  x : StrBigInt;
  epoch : StrBigInt;
  rln_identifier : Z
}.

(** [RLNFullProof.publicSignals]; a field read off the end of the backend's
    array is [undefined], here [None]. *)
Record PublicSignals : Type := mkPublicSignals {
  yShare : option StrBigInt;
  merkleRoot : option StrBigInt;
  internalNullifier : option StrBigInt;
  signalHash : option StrBigInt;
  ps_epoch : option StrBigInt;
  rlnIdentifier : option StrBigInt
}.

Record RLNFullProof (Proof : Type) : Type := mkFullProof {
  proof : Proof;
  publicSignals : PublicSignals
}.
Arguments mkFullProof {Proof} proof publicSignals.
Arguments proof {Proof} r.
Arguments publicSignals {Proof} r.

(** The static field [_poseidon] together with the number of
    [buildPoseidon().then(...)] continuations that are scheduled and have
    not run yet. *)
Record state : Type := mkState {
  _poseidon : option (list Z -> Z);
  scheduled : nat
}.

Section Protocol.

(** The scalar field prime [Fq] is built on. *)
Variable p : Z.

(** The hash function [buildPoseidon()] resolves to. *)
Variable buildPoseidon : list Z -> Z.

(** [toUtf8Bytes] of [@ethersproject/strings]. *)
Variable toUtf8Bytes : string -> list byte.

(** The Keccak-256 digest [@ethersproject/solidity] computes on the packed
    bytes. *)
Variable keccak : list byte -> list byte.

(** The Groth16 backend of snarkjs. *)
Variable Proof : Type.
Variable fullProve :
  Witness -> string -> string -> result (Proof * list StrBigInt).
Variable verify : string -> list (option StrBigInt) -> Proof -> result bool.

(** One scheduled continuation runs: [this._poseidon = p] (the value of
    [this._poseidon(input)] it returns is dropped). *)
Definition settle (st : state) : state :=
  match scheduled st with
  | O => st
  | S n => mkState (Some buildPoseidon) n
  end.

(** [_poseidon] is private and assigned at line 171 only: it is unset or
    holds what the build resolved to. *)
Definition handle_ok (st : state) : Prop :=
  _poseidon st = None \/ _poseidon st = Some buildPoseidon.

(** An [await]: while the caller is suspended, [k] of the scheduled
    continuations run. *)
Definition await {A : Type} (k : nat) (c : state * result A) : state * result A :=
  (Nat.iter k settle c.1, c.2).

(** [poseidon(input)], lines 167-176.  With [_poseidon] unset the build is
    only scheduled, and line 175 calls [undefined]. *)
Definition poseidon (st : state) (input : list Z) : state * result Z :=
  let st1 :=
    match _poseidon st with
    | None => mkState (_poseidon st) (S (scheduled st))
    | Some _ => st
    end in
  match _poseidon st1 with
  | None => (st1, Err TypeError)
  | Some h => (st1, Ok (h input))
  end.

(** [genNullifier(a1, rlnIdentifier)]. *)
Definition genNullifier (k : nat) (st : state) (a1 rlnIdentifier : Z)
  : state * result Z :=
  await k (poseidon st [a1; rlnIdentifier]).

(** [calculateOutput(identitySecret, epoch, rlnIdentifier, x)]; [k1], [k2]
    and [k3] say how many continuations run at its three [await]s. *)
Definition calculateOutput (k1 k2 k3 : nat) (st : state)
    (identitySecret epoch rlnIdentifier x : Z) : state * result (Z * Z) :=
  match await k1 (poseidon st [identitySecret; epoch]) with
  | (st1, Err e) => (st1, Err e)
  | (st1, Ok a1) =>
      let y := Fq.normalize p (a1 * x + identitySecret) in
      match await k3 (genNullifier k2 st1 a1 rlnIdentifier) with
      | (st2, Err e) => (st2, Err e)
      | (st2, Ok nullifier) => (st2, Ok (y, nullifier))
      end
  end.

(** [keccak256(['bytes'], [value])]: the packed encoding of one [bytes]
    value is the bytes themselves. *)
Definition keccak256 (value : string) : result string :=
  bs ← Hex.arrayify value; Ok (Hex.hexlify (keccak bs)).

(** [genSignalHash(signal)]. *)
Definition genSignalHash (signal : string) : result Z :=
  let converted := Hex.hexlify (toUtf8Bytes signal) in
  digest ← keccak256 converted;
  n ← Hex.BigInt digest;
  Ok (Z.shiftr n 8).

(** [genWitness]; [shouldHash] is [None] when the caller leaves it out. *)
Definition genWitness (identitySecret : Z) (merkleProof : MerkleProof)
    (epoch : StrBigInt) (signal : string) (rlnIdentifier : Z)
    (shouldHash : option bool) : result Witness :=
  let shouldHash := default true shouldHash in
  x ← (if shouldHash then h ← genSignalHash signal; Ok (Big h)
       else Ok (Str signal));
  Ok (mkWitness identitySecret (siblings merkleProof)
        (pathIndices merkleProof) x epoch rlnIdentifier).

(** [retrieveSecret(x1, x2, y1, y2)]. *)
Definition retrieveSecret (x1 x2 y1 y2 : Z) : result Z :=
  slope ← Fq.div p (Fq.sub p y2 y1) (Fq.sub p x2 x1);
  let privateKey := Fq.sub p y1 (Fq.mul p slope x1) in
  Ok (Fq.normalize p privateKey).

(** [genProof(witness, wasmFilePath, finalZkeyPath)]; the backend's fourth
    argument, the logger, is [null]. *)
Definition genProof (witness : Witness) (wasmFilePath finalZkeyPath : string)
  : result (RLNFullProof Proof) :=
  '(proof, publicSignals) ← fullProve witness wasmFilePath finalZkeyPath;
  Ok (mkFullProof proof
        (mkPublicSignals (publicSignals !! 0%nat) (publicSignals !! 1%nat)
           (publicSignals !! 2%nat) (publicSignals !! 3%nat)
           (publicSignals !! 4%nat) (publicSignals !! 5%nat))).

(** The array literal of lines 57-64. *)
Definition verifyProof_signals (publicSignals : PublicSignals)
  : list (option StrBigInt) :=
  [yShare publicSignals; merkleRoot publicSignals;
   internalNullifier publicSignals; signalHash publicSignals;
   ps_epoch publicSignals; rlnIdentifier publicSignals].

(** [verifyProof(verificationKey, { proof, publicSignals })]. *)
Definition verifyProof (verificationKey : string)
    (fullProof : RLNFullProof Proof) : result bool :=
  verify verificationKey (verifyProof_signals (publicSignals fullProof))
    (proof fullProof).

End Protocol.
End RLN.

(** ** What a registry is configured with *)

(** Two registry states with the same depth and zero value, whose trees,
    if any, are both there and agree on hash, depth, zero value and arity:
    they differ in their leaves at most. *)
Definition same_configuration (r r' : Registry.t) : Prop :=
  Registry._treeDepth r' = Registry._treeDepth r
  /\ Registry._zeroValue r' = Registry._zeroValue r
  /\ match Registry._merkleTree r, Registry._merkleTree r' with
     | None, None => True
     | Some tr, Some tr' =>
         IncrementalMerkleTree.hash tr' = IncrementalMerkleTree.hash tr
         /\ IncrementalMerkleTree.depth tr' = IncrementalMerkleTree.depth tr
         /\ IncrementalMerkleTree.zeroValue tr' = IncrementalMerkleTree.zeroValue tr
         /\ IncrementalMerkleTree.arity tr' = IncrementalMerkleTree.arity tr
     | _, _ => False
     end.

(** ** Sample values *)

(** A stand-in for the hash, to run the definitions on. *)
Definition sample_hash (input : list Z) : Z := foldr Z.add 3 input.

(** A stand-in for the digest: 32 bytes cut from the input, padded. *)
Definition sample_keccak (bs : list byte) : list byte :=
  take 32 (bs ++ repeat xff 32).

(** A stand-in for the proof backend: the proof is a number, the public
    signals six decimal texts. *)
Definition sample_signals : list RLN.StrBigInt :=
  [RLN.Str "11"; RLN.Str "12"; RLN.Str "13"; RLN.Str "14"; RLN.Str "15"; RLN.Str "16"].

Definition sample_fullProve (w : RLN.Witness) (wasmFilePath finalZkeyPath : string)
  : result (Z * list RLN.StrBigInt) :=
  Ok (RLN.identity_secret w, sample_signals).

Definition sample_verify (verificationKey : string)
    (signals : list (option RLN.StrBigInt)) (proof : Z) : result bool :=
  Ok (bool_decide (length signals = 6%nat)).

Definition sample_proof : RLN.MerkleProof :=
  RLN.mkMerkleProof 99 22 [11; 7] [1; 0].

Definition sample_witness : RLN.Witness :=
  RLN.mkWitness 5 [11; 7] [1; 0] (RLN.Str "hello") (RLN.Big 7) 42.

(** A registry of depth 16 with three members. *)
Definition sample_registry : Registry.t :=
  (Registry.addMembers (Registry.init sample_hash (Registry.mk None 16 0))
     [11; 22; 33]).1.

(** * Properties *)

(** ** Field arithmetic *)

Section FieldFacts.

Variable p : Z.

Lemma Fq_normalize_range a : 0 < p -> 0 <= Fq.normalize p a < p.
Proof. intros Hp. unfold Fq.normalize. apply Z.mod_pos_bound. exact Hp. Qed.

Lemma Fq_normalize_idemp a : Fq.normalize p (Fq.normalize p a) = Fq.normalize p a.
Proof. unfold Fq.normalize. apply Zmod_mod. Qed.

Lemma Fq_sub_zero_iff a b : Fq.sub p a b = 0 <-> a mod p = b mod p.
Proof. unfold Fq.sub, Fq.normalize. symmetry. apply Z.cong_iff_0. Qed.

Lemma Fq_sub_mod a b : Fq.sub p a b mod p = Fq.sub p a b.
Proof. unfold Fq.sub, Fq.normalize. apply Zmod_mod. Qed.

Lemma Fq_div_fails_iff a b : Fq.div p a b = Err DivisionByZero <-> b mod p = 0.
Proof.
  unfold Fq.div. destruct (Z.eqb_spec (b mod p) 0) as [E | E]; split; intros H.
  - exact E.
  - reflexivity.
  - discriminate H.
  - contradiction.
Qed.

Lemma Fq_div_defined a b :
  b mod p <> 0 -> Fq.div p a b = Ok (Fq.normalize p (a * Z.invmod b p)).
Proof.
  intros H. unfold Fq.div. apply Z.eqb_neq in H. rewrite H. reflexivity.
Qed.

(** The only failure of a division is DivisionByZero. *)
Lemma Fq_div_error a b e : Fq.div p a b = Err e -> e = DivisionByZero.
Proof.
  unfold Fq.div. destruct (b mod p =? 0); intros H; inversion H; reflexivity.
Qed.

(** The slope of the line through two shares: the difference of the
    ordinates over the difference of the abscissas is the coefficient. *)
Lemma Fq_slope (a s x1 x2 : Z) :
  Z.prime p -> x1 mod p <> x2 mod p ->
  Fq.div p (Fq.sub p ((a * x2 + s) mod p) ((a * x1 + s) mod p)) (Fq.sub p x2 x1)
  = Ok (a mod p).
Proof.
  intros Hp Hx.
  assert (Hd : (x2 - x1) mod p <> 0).
  { intros E. apply Hx. symmetry. apply Z.cong_iff_0. exact E. }
  rewrite Fq_div_defined by (rewrite Fq_sub_mod; exact Hd).
  f_equal. unfold Fq.sub, Fq.normalize.
  rewrite <- Zminus_mod.
  rewrite Z.invmod_mod_l.
  rewrite Zmult_mod_idemp_l.
  replace ((a * x2 + s - (a * x1 + s)) * Z.invmod (x2 - x1) p)
    with (a * (Z.invmod (x2 - x1) p * (x2 - x1))) by ring.
  rewrite <- Zmult_mod_idemp_r.
  rewrite (Z.invmod_prime _ _ Hp Hd).
  rewrite Z.mul_1_r. reflexivity.
Qed.

(** Taking the slope's share away from an ordinate leaves the constant
    term. *)
Lemma Fq_intercept (a s x1 : Z) :
  Fq.normalize p (Fq.sub p ((a * x1 + s) mod p) (Fq.mul p (a mod p) x1)) = s mod p.
Proof.
  unfold Fq.sub, Fq.mul, Fq.normalize.
  rewrite Zmod_mod.
  rewrite Zmult_mod_idemp_l.
  rewrite <- Zminus_mod.
  f_equal. ring.
Qed.

End FieldFacts.

Lemma prime_7 : Z.prime 7.
Proof.
  split; [lia |].
  intros n Hn [k Hk].
  assert (n = 2 \/ n = 3 \/ n = 4 \/ n = 5 \/ n = 6) as Hcases by lia.
  destruct Hcases as [-> | [-> | [-> | [-> | ->]]]]; lia.
Qed.

(** ** The protocol core *)

Section ProtocolFacts.

Variable p : Z.
Variable buildPoseidon : list Z -> Z.

Lemma settle_keeps_handle st :
  RLN._poseidon st = Some buildPoseidon ->
  RLN._poseidon (RLN.settle buildPoseidon st) = Some buildPoseidon.
Proof.
  intros H. unfold RLN.settle. destruct (RLN.scheduled st); [exact H | reflexivity].
Qed.

Lemma await_keeps_handle k st :
  RLN._poseidon st = Some buildPoseidon ->
  RLN._poseidon (Nat.iter k (RLN.settle buildPoseidon) st) = Some buildPoseidon.
Proof.
  intros H. induction k as [| k IH]; simpl.
  - exact H.
  - apply settle_keeps_handle. exact IH.
Qed.

Lemma poseidon_set st h input :
  RLN._poseidon st = Some h -> RLN.poseidon st input = (st, Ok (h input)).
Proof. intros H. unfold RLN.poseidon. rewrite H. simpl. rewrite H. reflexivity. Qed.

Lemma poseidon_unset st input :
  RLN._poseidon st = None ->
  RLN.poseidon st input = (RLN.mkState None (S (RLN.scheduled st)), Err TypeError).
Proof. intros H. unfold RLN.poseidon. rewrite H. reflexivity. Qed.

(** A hash that came back was computed by the built function, on a handle
    that was already set. *)
Lemma poseidon_ok_inv st input v :
  RLN.handle_ok buildPoseidon st ->
  (RLN.poseidon st input).2 = Ok v ->
  RLN._poseidon st = Some buildPoseidon /\ v = buildPoseidon input.
Proof.
  intros [Hn | Hs] H.
  - rewrite (poseidon_unset _ _ Hn) in H. discriminate H.
  - rewrite (poseidon_set _ _ _ Hs) in H. simpl in H.
    split; [exact Hs | congruence].
Qed.

Lemma calculateOutput_set k1 k2 k3 st identitySecret epoch rlnIdentifier x :
  RLN._poseidon st = Some buildPoseidon ->
  (RLN.calculateOutput p buildPoseidon k1 k2 k3 st identitySecret epoch rlnIdentifier x).2
  = Ok ((buildPoseidon [identitySecret; epoch] * x + identitySecret) mod p,
        buildPoseidon [buildPoseidon [identitySecret; epoch]; rlnIdentifier]).
Proof.
  intros H. unfold RLN.calculateOutput, RLN.genNullifier.
  rewrite (poseidon_set _ _ _ H). unfold RLN.await at 1. simpl.
  rewrite (poseidon_set _ buildPoseidon) by (apply await_keeps_handle; exact H).
  reflexivity.
Qed.

Lemma calculateOutput_ok_inv k1 k2 k3 st identitySecret epoch rlnIdentifier x y n :
  RLN.handle_ok buildPoseidon st ->
  (RLN.calculateOutput p buildPoseidon k1 k2 k3 st identitySecret epoch rlnIdentifier x).2
  = Ok (y, n) ->
  y = (buildPoseidon [identitySecret; epoch] * x + identitySecret) mod p.
Proof.
  intros [Hn | Hs] H.
  - unfold RLN.calculateOutput in H. rewrite (poseidon_unset _ _ Hn) in H.
    simpl in H. discriminate H.
  - rewrite (calculateOutput_set _ _ _ _ _ _ _ _ Hs) in H. congruence.
Qed.

(** With the Poseidon handle set, [calculateOutput] returns the pair
    [(y, nullifier)] where [a1 = Poseidon(identitySecret, epoch)], [y] is the
    representative of [a1 * x + identitySecret] in [0, p) and
    [nullifier = Poseidon(a1, rlnIdentifier)]; [genNullifier(a1,
    rlnIdentifier)] is [Poseidon(a1, rlnIdentifier)]. *)
Lemma calculateOutput_returns k1 k2 k3 st identitySecret epoch rlnIdentifier x :
  0 < p ->
  RLN._poseidon st = Some buildPoseidon ->
  let a1 := buildPoseidon [identitySecret; epoch] in
  let y := (a1 * x + identitySecret) mod p in
  (RLN.calculateOutput p buildPoseidon k1 k2 k3 st identitySecret epoch rlnIdentifier x).2
  = Ok (y, buildPoseidon [a1; rlnIdentifier])
  /\ 0 <= y < p
  /\ (y - (a1 * x + identitySecret)) mod p = 0
  /\ forall k a r,
       (RLN.genNullifier buildPoseidon k st a r).2 = Ok (buildPoseidon [a; r]).
Proof.
  intros Hp H a1 y. repeat split.
  - apply calculateOutput_set. exact H.
  - apply Z.mod_pos_bound. exact Hp.
  - apply Z.mod_pos_bound. exact Hp.
  - apply Z.cong_iff_0. subst y. apply Zmod_mod.
  - intros k a r. unfold RLN.genNullifier.
    rewrite (poseidon_set _ _ _ H). reflexivity.
Qed.

(** C1: two outputs computed from one secret, epoch and identifier at
    abscissas that differ modulo [p] give the secret back:
    [retrieveSecret(x1, x2, y1, y2)] returns the representative of
    [identitySecret] in [0, p). *)
Theorem retrieveSecret_calculateOutput
    k1 k2 k3 k1' k2' k3' st st' identitySecret epoch rlnIdentifier x1 x2 y1 n1 y2 n2 :
  Z.prime p ->
  RLN.handle_ok buildPoseidon st ->
  RLN.handle_ok buildPoseidon st' ->
  x1 mod p <> x2 mod p ->
  (RLN.calculateOutput p buildPoseidon k1 k2 k3 st identitySecret epoch rlnIdentifier x1).2
  = Ok (y1, n1) ->
  (RLN.calculateOutput p buildPoseidon k1' k2' k3' st' identitySecret epoch rlnIdentifier x2).2
  = Ok (y2, n2) ->
  RLN.retrieveSecret p x1 x2 y1 y2 = Ok (identitySecret mod p)
  /\ 0 <= identitySecret mod p < p.
Proof.
  intros Hp Hst Hst' Hx H1 H2.
  apply (calculateOutput_ok_inv _ _ _ _ _ _ _ _ _ _ Hst) in H1.
  apply (calculateOutput_ok_inv _ _ _ _ _ _ _ _ _ _ Hst') in H2.
  subst y1 y2. split.
  - unfold RLN.retrieveSecret.
    rewrite (Fq_slope p _ _ _ _ Hp Hx). simpl.
    rewrite Fq_intercept. reflexivity.
  - apply Z.mod_pos_bound. pose proof (Z.prime_ge_2 p Hp). lia.
Qed.

(** C3: [retrieveSecret(x, x, y1, y2)] fails with DivisionByZero whatever
    [x], [y1] and [y2] are, and [retrieveSecret(x1, x2, y1, y2)] fails, with
    that error, exactly when [x1] and [x2] are congruent modulo [p]. *)
Theorem retrieveSecret_division_by_zero :
  (forall x y1 y2, RLN.retrieveSecret p x x y1 y2 = Err DivisionByZero)
  /\ (forall x1 x2 y1 y2,
        RLN.retrieveSecret p x1 x2 y1 y2 = Err DivisionByZero
        <-> x1 mod p = x2 mod p)
  /\ (forall x1 x2 y1 y2 e,
        RLN.retrieveSecret p x1 x2 y1 y2 = Err e -> e = DivisionByZero)
  /\ (forall x1 x2 y1 y2,
        x1 mod p <> x2 mod p ->
        exists secret, RLN.retrieveSecret p x1 x2 y1 y2 = Ok secret).
Proof.
  assert (Hiff : forall x1 x2 y1 y2,
            RLN.retrieveSecret p x1 x2 y1 y2 = Err DivisionByZero
            <-> x1 mod p = x2 mod p).
  { intros x1 x2 y1 y2. unfold RLN.retrieveSecret.
    destruct (Fq.div p (Fq.sub p y2 y1) (Fq.sub p x2 x1)) as [q | e] eqn:E; simpl.
    - split; [discriminate |].
      intros Hx. exfalso.
      assert (Hz : Fq.sub p x2 x1 mod p = 0).
      { rewrite Fq_sub_mod. apply Fq_sub_zero_iff. symmetry. exact Hx. }
      apply (Fq_div_fails_iff p (Fq.sub p y2 y1)) in Hz. congruence.
    - pose proof (Fq_div_error _ _ _ _ E) as ->.
      split; [| reflexivity].
      intros _. apply Fq_div_fails_iff in E. rewrite Fq_sub_mod in E.
      symmetry. apply Fq_sub_zero_iff. exact E. }
  split; [| split; [exact Hiff | split]].
  - intros x y1 y2. apply Hiff. reflexivity.
  - intros x1 x2 y1 y2 e. unfold RLN.retrieveSecret.
    destruct (Fq.div p (Fq.sub p y2 y1) (Fq.sub p x2 x1)) as [q | e'] eqn:E; simpl.
    + discriminate.
    + intros H. inversion H; subst. eapply Fq_div_error. exact E.
  - intros x1 x2 y1 y2 Hx.
    destruct (RLN.retrieveSecret p x1 x2 y1 y2) as [s | e] eqn:E.
    + exists s. reflexivity.
    + exfalso. apply Hx. apply (Hiff x1 x2 y1 y2).
      unfold RLN.retrieveSecret in E |- *.
      destruct (Fq.div p (Fq.sub p y2 y1) (Fq.sub p x2 x1)) as [q | e'] eqn:E'; simpl in *.
      * discriminate E.
      * f_equal. eapply Fq_div_error. exact E'.
Qed.

End ProtocolFacts.

Lemma calculateOutput_returns_witness :
  0 < 7
  /\ (RLN.calculateOutput 7 sample_hash 0 0 0 (RLN.mkState (Some sample_hash) 0) 5 2 1 3).2
     = Ok (0, 14).
Proof.
  split; [lia |].
  refine (proj1 (calculateOutput_returns 7 sample_hash 0 0 0
                   (RLN.mkState (Some sample_hash) 0) 5 2 1 3 _ _)).
  - lia.
  - reflexivity.
Defined.

Lemma retrieveSecret_calculateOutput_witness :
  3 mod 7 <> 4 mod 7 /\ RLN.retrieveSecret 7 3 4 0 3 = Ok 5.
Proof.
  split; [vm_compute; discriminate |].
  refine (proj1 (retrieveSecret_calculateOutput 7 sample_hash 0 0 0 0 0 0
                   (RLN.mkState (Some sample_hash) 0) (RLN.mkState (Some sample_hash) 1)
                   5 2 1 3 4 0 14 3 14 _ _ _ _ _ _)).
  - exact prime_7.
  - right. reflexivity.
  - right. reflexivity.
  - vm_compute. discriminate.
  - reflexivity.
  - reflexivity.
Defined.

(** ** The membership registry *)

Section RegistryFacts.

Variable poseidon : list Z -> Z.

Lemma constructor_accepts d z :
  16 <= d <= 32 ->
  Registry.constructor (Some d) (Some z) = Ok (Registry.mk None d z).
Proof.
  intros Hd. unfold Registry.constructor. simpl.
  destruct (Z.ltb_spec d 16) as [H | H]; [lia |].
  destruct (Z.gtb_spec d 32) as [H' | H']; [lia |].
  reflexivity.
Qed.

Lemma constructor_rejects d z :
  d < 16 \/ 32 < d ->
  Registry.constructor (Some d) z = Err InvalidConfiguration.
Proof.
  intros Hd. unfold Registry.constructor. simpl.
  destruct (Z.ltb_spec d 16) as [H | H]; [reflexivity |].
  destruct (Z.gtb_spec d 32) as [H' | H']; [reflexivity | lia].
Qed.

Lemma zeroes_head h n z : (0 < n)%nat ->
  IncrementalMerkleTree.zeroes_from h n z !! 0%nat = Some z.
Proof. destruct n as [| n]; [lia | reflexivity]. Qed.

(** The accessor reads the tree's leaf zero value as soon as the tree has a
    level. *)
Lemma zeroValue_of_tree r tr :
  Registry._merkleTree r = Some tr ->
  0 < IncrementalMerkleTree.depth tr ->
  Registry.zeroValue r = Ok (Some (IncrementalMerkleTree.zeroValue tr)).
Proof.
  intros Ht Hd. unfold Registry.zeroValue, Registry.tree. rewrite Ht. simpl.
  unfold IncrementalMerkleTree.zeroes. rewrite zeroes_head by lia. reflexivity.
Qed.

Lemma leaf_at_empty h d z a i :
  IncrementalMerkleTree.leaf_at (IncrementalMerkleTree.new h d z a) i = z.
Proof.
  unfold IncrementalMerkleTree.leaf_at, IncrementalMerkleTree.new. simpl.
  destruct (0 <=? i), (i <? Z.of_nat 0); reflexivity.
Qed.

(** A registry fresh from the constructor has no tree yet. *)
Lemma constructor_no_tree d z r :
  Registry.constructor d z = Ok r -> Registry._merkleTree r = None.
Proof.
  unfold Registry.constructor.
  destruct (_ || _); intros H; inversion H; reflexivity.
Qed.

(** C6, as the code has it: a depth outside [16, 32] makes the constructor
    throw before anything is assigned and every depth inside is accepted;
    the registry then holds no tree, and it is [init] that gives it the
    tree of that depth, of capacity [2^d], with no occupied slot and every
    slot reading the zero value. *)
Theorem constructor_then_init :
  (forall d z, d < 16 \/ 32 < d ->
     Registry.constructor (Some d) z = Err InvalidConfiguration)
  /\ (forall d z, 16 <= d <= 32 ->
        exists r0, Registry.constructor (Some d) (Some z) = Ok r0
          /\ Registry._merkleTree r0 = None
          /\ Registry.depth (Registry.init poseidon r0) = Ok d
          /\ Registry.zeroValue (Registry.init poseidon r0) = Ok (Some z)
          /\ Registry.members (Registry.init poseidon r0) = Ok []
          /\ Registry.holds_empty_tree (Registry.init poseidon r0) d z).
Proof.
  split.
  - intros d z Hd. apply constructor_rejects. exact Hd.
  - intros d z Hd. exists (Registry.mk None d z).
    split; [apply constructor_accepts; exact Hd |].
    split; [reflexivity |].
    split; [reflexivity |].
    split.
    { apply zeroValue_of_tree with (tr := IncrementalMerkleTree.new poseidon d z 2).
      - reflexivity.
      - simpl. lia. }
    split; [reflexivity |].
    exists (IncrementalMerkleTree.new poseidon d z 2).
    split; [reflexivity |].
    split; [reflexivity |].
    intros i _. apply leaf_at_empty.
Qed.

(** C7: removing a member at an occupied index leaves a leaf sequence of
    the same length, with the zero value at that index and every other
    entry as it was. *)
Theorem removeMember_members (r : Registry.t) (old : list Z) (index : Z) :
  Registry.members r = Ok old ->
  0 <= index < Z.of_nat (length old) ->
  exists tr new,
    Registry._merkleTree r = Some tr
    /\ (Registry.removeMember r index).2 = Ok ()
    /\ Registry.members (Registry.removeMember r index).1 = Ok new
    /\ length new = length old
    /\ new !! Z.to_nat index = Some (IncrementalMerkleTree.zeroValue tr)
    /\ (forall j : nat, j <> Z.to_nat index -> new !! j = old !! j)
    /\ Registry.zeroValue (Registry.removeMember r index).1 = Registry.zeroValue r.
Proof.
  intros Hm Hi.
  unfold Registry.members, Registry.tree in Hm.
  destruct (Registry._merkleTree r) as [tr |] eqn:Ht; simpl in Hm; [| discriminate Hm].
  injection Hm as <-.
  exists tr, (<[Z.to_nat index := IncrementalMerkleTree.zeroValue tr]>
               (IncrementalMerkleTree.leaves tr)).
  assert (Hdel : IncrementalMerkleTree.delete tr index
                 = Ok (IncrementalMerkleTree.with_leaves tr
                         (<[Z.to_nat index := IncrementalMerkleTree.zeroValue tr]>
                            (IncrementalMerkleTree.leaves tr)))).
  { unfold IncrementalMerkleTree.delete.
    destruct (Z.leb_spec 0 index) as [_ | H]; [| lia].
    destruct (Z.ltb_spec index (Z.of_nat (length (IncrementalMerkleTree.leaves tr))))
      as [_ | H]; [reflexivity | lia]. }
  unfold Registry.removeMember, Registry.tree. rewrite Ht. simpl. rewrite Hdel. simpl.
  split; [reflexivity |].
  split; [reflexivity |].
  split; [reflexivity |].
  split; [apply length_insert |].
  split; [apply list_lookup_insert_eq; lia |].
  split; [| unfold Registry.zeroValue, Registry.tree; rewrite Ht; reflexivity].
  intros j Hj. apply list_lookup_insert_ne. congruence.
Qed.

End RegistryFacts.

Lemma constructor_then_init_witness :
  Registry.constructor (Some 15) None = Err InvalidConfiguration
  /\ exists r0, Registry.constructor (Some 20) (Some 0) = Ok r0
       /\ Registry._merkleTree r0 = None
       /\ Registry.depth (Registry.init sample_hash r0) = Ok 20
       /\ Registry.zeroValue (Registry.init sample_hash r0) = Ok (Some 0)
       /\ Registry.members (Registry.init sample_hash r0) = Ok []
       /\ Registry.holds_empty_tree (Registry.init sample_hash r0) 20 0.
Proof.
  split.
  - apply (proj1 (constructor_then_init sample_hash) 15 None). left. lia.
  - apply (proj2 (constructor_then_init sample_hash) 20 0). lia.
Defined.

(** The constructor alone, at an accepted depth, leaves a registry without
    a tree: it has no capacity and no leaves to read. *)
Lemma constructor_alone_has_no_tree :
  exists r0, Registry.constructor (Some 16) (Some 0) = Ok r0
    /\ ~ Registry.holds_empty_tree r0 16 0
    /\ Registry.members r0 = Err TypeError.
Proof.
  exists (Registry.mk None 16 0).
  split; [reflexivity |].
  split; [| reflexivity].
  intros [tr [Ht _]]. discriminate Ht.
Qed.

Lemma removeMember_members_witness :
  exists tr new,
    Registry._merkleTree sample_registry = Some tr
    /\ (Registry.removeMember sample_registry 1).2 = Ok ()
    /\ Registry.members (Registry.removeMember sample_registry 1).1 = Ok new
    /\ length new = length [11; 22; 33]
    /\ new !! Z.to_nat 1 = Some (IncrementalMerkleTree.zeroValue tr)
    /\ (forall j : nat, j <> Z.to_nat 1 -> new !! j = [11; 22; 33] !! j)
    /\ Registry.zeroValue (Registry.removeMember sample_registry 1).1
       = Registry.zeroValue sample_registry.
Proof.
  apply (removeMember_members sample_registry [11; 22; 33] 1).
  - reflexivity.
  - simpl. lia.
Defined.

Example members_sample : Registry.members sample_registry = Ok [11; 22; 33].
Proof. reflexivity. Qed.

Example indexOf_sample :
  Registry.indexOf sample_registry 22 = Ok 1
  /\ Registry.indexOf sample_registry 44 = Ok (-1).
Proof. split; reflexivity. Qed.

Example removeMember_sample :
  Registry.members (Registry.removeMember sample_registry 1).1 = Ok [11; 0; 33].
Proof. reflexivity. Qed.

Example removeMember_outside_sample :
  Registry.removeMember sample_registry 3 = (sample_registry, Err OutOfRange)
  /\ Registry.removeMember sample_registry (-1) = (sample_registry, Err OutOfRange).
Proof. split; reflexivity. Qed.

(** ** Calls by name *)

Lemma method_named_name name m :
  RegistryObject.method_named name = Some m ->
  name = match m with
         | RegistryObject.Init => "init"
         | RegistryObject.IndexOf => "indexOf"
         | RegistryObject.AddMember => "addMember"
         | RegistryObject.AddMembers => "addMembers"
         | RegistryObject.RemoveMember => "removeMember"
         end.
Proof.
  unfold RegistryObject.method_named.
  destruct (String.eqb_spec name "init") as [-> | _];
    [intros H; inversion H; reflexivity |].
  destruct (String.eqb_spec name "indexOf") as [-> | _];
    [intros H; inversion H; reflexivity |].
  destruct (String.eqb_spec name "addMember") as [-> | _];
    [intros H; inversion H; reflexivity |].
  destruct (String.eqb_spec name "addMembers") as [-> | _];
    [intros H; inversion H; reflexivity |].
  destruct (String.eqb_spec name "removeMember") as [-> | _];
    [intros H; inversion H; reflexivity |].
  discriminate.
Qed.

(** The calls by name are the embedded methods. *)
Lemma call_declared poseidon r :
  (forall args, RegistryObject.call poseidon r "init" args
                = Some (Registry.init poseidon r, Ok RegistryObject.VUndefined))
  /\ (forall member args,
        RegistryObject.call poseidon r "indexOf" (RegistryObject.VBigInt member :: args)
        = Some (r, i ← Registry.indexOf r member; Ok (RegistryObject.VNumber i)))
  /\ (forall member args,
        RegistryObject.call poseidon r "addMember" (RegistryObject.VBigInt member :: args)
        = Some (RegistryObject.returns_nothing (Registry.addMember r member)))
  /\ (forall members args,
        RegistryObject.call poseidon r "addMembers" (RegistryObject.VArray members :: args)
        = Some (RegistryObject.returns_nothing (Registry.addMembers r members)))
  /\ (forall index args,
        RegistryObject.call poseidon r "removeMember" (RegistryObject.VNumber index :: args)
        = Some (RegistryObject.returns_nothing (Registry.removeMember r index))).
Proof. repeat split. Qed.

Lemma addMember_errors r member e :
  (Registry.addMember r member).2 = Err e -> e = TypeError \/ e = CapacityExceeded.
Proof.
  unfold Registry.addMember, Registry.tree.
  destruct (Registry._merkleTree r) as [tr |]; simpl.
  - unfold IncrementalMerkleTree.insert. destruct (_ <=? _); simpl; intros H.
    + right. congruence.
    + discriminate H.
  - intros H. left. congruence.
Qed.

Lemma addMembers_errors r members e :
  (Registry.addMembers r members).2 = Err e -> e = TypeError \/ e = CapacityExceeded.
Proof.
  revert r. induction members as [| m ms IH]; intros r; cbn [Registry.addMembers].
  - discriminate.
  - pose proof (addMember_errors r m) as Hm.
    destruct (Registry.addMember r m) as [r' [[] | e']]; simpl in *.
    + apply IH.
    + intros H. apply Hm. congruence.
Qed.

Lemma indexOf_errors r member e :
  Registry.indexOf r member = Err e -> e = TypeError.
Proof.
  unfold Registry.indexOf, Registry.tree.
  destruct (Registry._merkleTree r); simpl; intros H; [discriminate H | congruence].
Qed.

(** C8, as the code has it: the registry has no [membershipProof]
    operation.  On every registry state the name reads as [undefined], and
    calling it, with a valid index, an invalid one or anything else, throws
    a TypeError and leaves the registry as it was.  Of the calls the
    registry does answer, none returns sibling values or path indicators
    (a call returns nothing, or the index found by [indexOf]), and only
    [removeMember] can fail with OutOfRange. *)
Theorem membershipProof_is_no_operation (poseidon : list Z -> Z) (r : Registry.t) :
  RegistryObject.get r "membershipProof" = Some (Ok RegistryObject.VUndefined)
  /\ (forall args,
        RegistryObject.call poseidon r "membershipProof" args = Some (r, Err TypeError))
  /\ (forall name args r' v,
        RegistryObject.call poseidon r name args = Some (r', Ok v) ->
        v = RegistryObject.VUndefined
        \/ (name = "indexOf"%string /\ exists i, v = RegistryObject.VNumber i))
  /\ (forall name args r',
        RegistryObject.call poseidon r name args = Some (r', Err OutOfRange) ->
        name = "removeMember"%string).
Proof.
  split; [reflexivity |]. split; [reflexivity |]. split.
  - intros name args r' v. unfold RegistryObject.call.
    destruct (RegistryObject.method_named name) as [m |] eqn:E.
    + apply method_named_name in E. subst name.
      destruct m, args as [| [] args]; simpl; try discriminate;
        unfold RegistryObject.returns_nothing; simpl.
      * intros H. inversion H. left. reflexivity.
      * intros H. inversion H. left. reflexivity.
      * intros H. inversion H. left. reflexivity.
      * intros H. inversion H. left. reflexivity.
      * intros H. inversion H. left. reflexivity.
      * intros H. inversion H. left. reflexivity.
      * intros H. inversion H. left. reflexivity.
      * destruct (Registry.indexOf r z) as [i |]; simpl; intros H; inversion H.
        right. split; [reflexivity | exists i; reflexivity].
      * destruct (Registry.addMember r z) as [r1 [[] |]]; simpl; intros H; inversion H.
        left. reflexivity.
      * destruct (Registry.addMembers r l) as [r1 [[] |]]; simpl; intros H; inversion H.
        left. reflexivity.
      * destruct (Registry.removeMember r n) as [r1 [[] |]]; simpl; intros H; inversion H.
        left. reflexivity.
    + destruct (RegistryObject.inherited name); discriminate.
  - intros name args r'. unfold RegistryObject.call.
    destruct (RegistryObject.method_named name) as [m |] eqn:E.
    + apply method_named_name in E. subst name.
      destruct m, args as [| [] args]; simpl; try discriminate;
        unfold RegistryObject.returns_nothing; simpl.
      * pose proof (indexOf_errors r z) as He.
        destruct (Registry.indexOf r z) as [i | e]; simpl; intros H; inversion H.
        subst e. specialize (He _ eq_refl). discriminate He.
      * pose proof (addMember_errors r z) as He.
        destruct (Registry.addMember r z) as [r1 [[] | e]]; simpl in *;
          intros H; inversion H.
        subst e. destruct (He _ eq_refl); discriminate.
      * pose proof (addMembers_errors r l) as He.
        destruct (Registry.addMembers r l) as [r1 [[] | e]]; simpl in *;
          intros H; inversion H.
        subst e. destruct (He _ eq_refl); discriminate.
      * intros _. reflexivity.
    + destruct (RegistryObject.inherited name); [discriminate |].
      intros H. inversion H.
Qed.

Lemma membershipProof_is_no_operation_witness :
  RegistryObject.call sample_hash sample_registry "indexOf" [RegistryObject.VBigInt 22]
  = Some (sample_registry, Ok (RegistryObject.VNumber 1))
  /\ (RegistryObject.VNumber 1 = RegistryObject.VUndefined
      \/ ("indexOf"%string = "indexOf"%string
          /\ exists i, RegistryObject.VNumber 1 = RegistryObject.VNumber i)).
Proof.
  split; [reflexivity |].
  refine (proj1 (proj2 (proj2 (membershipProof_is_no_operation sample_hash sample_registry)))
            "indexOf"%string [RegistryObject.VBigInt 22] sample_registry
            (RegistryObject.VNumber 1) _).
  reflexivity.
Defined.

(** On a registry of three members, calling [membershipProof] with the
    valid index 1 returns no siblings and no path indicators but throws a
    TypeError, and with the invalid index 7 the failure is that TypeError,
    not OutOfRange. *)
Lemma membershipProof_call_throws :
  Registry.members sample_registry = Ok [11; 22; 33]
  /\ RegistryObject.call sample_hash sample_registry "membershipProof"
       [RegistryObject.VNumber 1]
     = Some (sample_registry, Err TypeError)
  /\ RegistryObject.call sample_hash sample_registry "membershipProof"
       [RegistryObject.VNumber 7]
     <> Some (sample_registry, Err OutOfRange).
Proof.
  split; [reflexivity |]. split; [reflexivity |].
  intros H. discriminate H.
Qed.

Example removeMember_by_name_sample :
  RegistryObject.call sample_hash sample_registry "removeMember"
    [RegistryObject.VNumber 7]
  = Some (sample_registry, Err OutOfRange).
Proof. reflexivity. Qed.

Example root_by_name_before_init :
  RegistryObject.get (Registry.mk None 20 0) "root" = Some (Err TypeError)
  /\ RegistryObject.call sample_hash (Registry.mk None 20 0) "root" []
     = Some (Registry.mk None 20 0, Err TypeError).
Proof. split; reflexivity. Qed.

(** ** Calls made before the setup has completed *)

Lemma tree_unset r : Registry._merkleTree r = None -> Registry.tree r = Err TypeError.
Proof. intros H. unfold Registry.tree. rewrite H. reflexivity. Qed.

(** C9, as the code has it: the registry has no guard of its own, so
    before [init] has run every accessor and every call that reaches the
    tree ends in the runtime's TypeError and leaves the registry as it
    was; adding an empty sequence of members reaches nothing and
    succeeds. *)
Theorem registry_before_init (r : Registry.t) :
  Registry._merkleTree r = None ->
  Registry.root r = Err TypeError
  /\ Registry.depth r = Err TypeError
  /\ Registry.zeroValue r = Err TypeError
  /\ Registry.members r = Err TypeError
  /\ (forall member, Registry.indexOf r member = Err TypeError)
  /\ (forall member, Registry.addMember r member = (r, Err TypeError))
  /\ (forall member rest,
        Registry.addMembers r (member :: rest) = (r, Err TypeError))
  /\ (forall index, Registry.removeMember r index = (r, Err TypeError))
  /\ Registry.addMembers r [] = (r, Ok ()).
Proof.
  intros H. pose proof (tree_unset r H) as Ht.
  unfold Registry.root, Registry.depth, Registry.zeroValue, Registry.members,
    Registry.indexOf.
  assert (Hadd : forall member, Registry.addMember r member = (r, Err TypeError)).
  { intros member. unfold Registry.addMember. rewrite Ht. reflexivity. }
  rewrite Ht. simpl.
  repeat split; try reflexivity.
  - exact Hadd.
  - intros member rest. rewrite Hadd. reflexivity.
  - intros index. unfold Registry.removeMember. rewrite Ht. reflexivity.
Qed.

Lemma registry_before_init_witness :
  Registry.root (Registry.mk None 20 0) = Err TypeError
  /\ Registry.addMembers (Registry.mk None 20 0) [] = (Registry.mk None 20 0, Ok ()).
Proof.
  pose proof (registry_before_init (Registry.mk None 20 0) eq_refl) as H.
  split.
  - exact (proj1 H).
  - exact (proj2 (proj2 (proj2 (proj2 (proj2 (proj2 (proj2 (proj2 H)))))))).
Defined.

(** A registry built with the default arguments and not yet initialised:
    reading its root fails, though not with a NotInitialized error, and
    adding no members succeeds. *)
Lemma uninitialised_registry_calls :
  exists r0, Registry.constructor None None = Ok r0
    /\ Registry._merkleTree r0 = None
    /\ Registry.root r0 <> Err NotInitialized
    /\ (Registry.addMembers r0 []).2 = Ok ().
Proof.
  exists (Registry.mk None 20 0).
  split; [reflexivity |].
  split; [reflexivity |].
  split; [discriminate | reflexivity].
Qed.

Section HandleFacts.

Variable p : Z.
Variable buildPoseidon : list Z -> Z.

(** With the handle unset, line 175 calls [undefined]: the call throws and
    the build stays scheduled. *)
Lemma calculateOutput_unset k1 k2 k3 st identitySecret epoch rlnIdentifier x :
  RLN._poseidon st = None ->
  (RLN.calculateOutput p buildPoseidon k1 k2 k3 st identitySecret epoch rlnIdentifier x).2
  = Err TypeError.
Proof.
  intros H. unfold RLN.calculateOutput. rewrite (poseidon_unset _ _ H). reflexivity.
Qed.

Lemma genNullifier_unset k st a1 rlnIdentifier :
  RLN._poseidon st = None ->
  (RLN.genNullifier buildPoseidon k st a1 rlnIdentifier).2 = Err TypeError.
Proof.
  intros H. unfold RLN.genNullifier. rewrite (poseidon_unset _ _ H). reflexivity.
Qed.

(** Once the continuation of the first, failed call has run, the handle is
    set and stays set. *)
Lemma handle_set_after_first_use input :
  RLN._poseidon
    (RLN.settle buildPoseidon (RLN.poseidon (RLN.mkState None 0) input).1)
  = Some buildPoseidon.
Proof. reflexivity. Qed.

(** C2 at the first call of a process: [_poseidon] is still unset, the
    build is scheduled but not waited for, and [calculateOutput] throws a
    TypeError instead of returning [(y, nullifier)]; so does
    [genNullifier]. *)
Theorem calculateOutput_first_call k1 k2 k3 identitySecret epoch rlnIdentifier x :
  RLN.calculateOutput p buildPoseidon k1 k2 k3 (RLN.mkState None 0)
    identitySecret epoch rlnIdentifier x
  = (Nat.iter k1 (RLN.settle buildPoseidon) (RLN.mkState None 1), Err TypeError)
  /\ (RLN.genNullifier buildPoseidon k1 (RLN.mkState None 0) identitySecret rlnIdentifier).2
     = Err TypeError.
Proof.
  split.
  - unfold RLN.calculateOutput. rewrite poseidon_unset by reflexivity. reflexivity.
  - apply genNullifier_unset. reflexivity.
Qed.

End HandleFacts.

Example calculateOutput_first_call_sample :
  (RLN.calculateOutput 7 sample_hash 0 0 0 (RLN.mkState None 0) 5 2 1 3).2
  = Err TypeError.
Proof. reflexivity. Qed.

Example calculateOutput_second_call_sample :
  let st := (RLN.calculateOutput 7 sample_hash 1 0 0 (RLN.mkState None 0) 5 2 1 3).1 in
  (RLN.calculateOutput 7 sample_hash 0 0 0 st 5 2 1 3).2 = Ok (0, 14).
Proof. reflexivity. Qed.

Example retrieveSecret_same_x : RLN.retrieveSecret 7 3 3 0 3 = Err DivisionByZero.
Proof. reflexivity. Qed.

Example retrieveSecret_congruent_x : RLN.retrieveSecret 7 3 10 0 3 = Err DivisionByZero.
Proof. reflexivity. Qed.

Example retrieveSecret_sample : RLN.retrieveSecret 7 3 4 0 3 = Ok 5.
Proof. reflexivity. Qed.

(** ** Hexadecimal strings *)

Lemma byte_value_range b : 0 <= Hex.byte_value b < 256.
Proof.
  unfold Hex.byte_value. pose proof (Byte.to_N_bounded b) as H.
  split; [apply N2Z.is_nonneg |].
  change 256 with (Z.of_N 256). apply N2Z.inj_lt. lia.
Qed.

Lemma digit_value_high b :
  Hex.digit_value (Hex.digit (Hex.byte_value b / 16)) = Some (Hex.byte_value b / 16).
Proof. destruct b; reflexivity. Qed.

Lemma digit_value_low b :
  Hex.digit_value (Hex.digit (Hex.byte_value b mod 16))
  = Some (Hex.byte_value b mod 16).
Proof. destruct b; reflexivity. Qed.

Lemma byte_of_digits b :
  Byte.of_N (Z.to_N (16 * (Hex.byte_value b / 16) + Hex.byte_value b mod 16)) = Some b.
Proof.
  rewrite <- Z.div_mod by lia.
  unfold Hex.byte_value. rewrite N2Z.id. apply Byte.of_to_N.
Qed.

Lemma parse_bytes_digits bs : Hex.parse_bytes (Hex.digits bs) = Some bs.
Proof.
  induction bs as [| b bs IH]; [reflexivity |].
  cbn [Hex.digits Hex.parse_bytes].
  rewrite digit_value_high. cbn [mbind option_bind].
  rewrite digit_value_low. cbn [mbind option_bind].
  rewrite byte_of_digits. cbn [mbind option_bind].
  rewrite IH. reflexivity.
Qed.

(** Reading back what [hexlify] wrote gives the bytes. *)
Lemma arrayify_hexlify bs : Hex.arrayify (Hex.hexlify bs) = Ok bs.
Proof. unfold Hex.arrayify, Hex.hexlify. rewrite parse_bytes_digits. reflexivity. Qed.

Lemma parse_number_digits bs acc :
  Hex.parse_number (Hex.digits bs) acc
  = Some (fold_left (fun acc b => 256 * acc + Hex.byte_value b) bs acc).
Proof.
  revert acc. induction bs as [| b bs IH]; intros acc; [reflexivity |].
  cbn [Hex.digits Hex.parse_number fold_left].
  rewrite digit_value_high. cbn [mbind option_bind].
  rewrite digit_value_low. cbn [mbind option_bind].
  rewrite IH. do 2 f_equal.
  pose proof (Z.div_mod (Hex.byte_value b) 16). lia.
Qed.

(** [BigInt] reads the text of a non-empty byte string as its big-endian
    value. *)
Lemma BigInt_hexlify bs : bs <> [] -> Hex.BigInt (Hex.hexlify bs) = Ok (Hex.big_endian bs).
Proof.
  intros Hne. unfold Hex.BigInt, Hex.hexlify, Hex.big_endian.
  pose proof (parse_number_digits bs 0) as H.
  destruct (Hex.digits bs) as [| c rest] eqn:E.
  - destruct bs; [contradiction | discriminate E].
  - rewrite H. reflexivity.
Qed.

Lemma fold_bytes_bound bs acc bound :
  0 <= acc < bound ->
  0 <= fold_left (fun acc b => 256 * acc + Hex.byte_value b) bs acc
    < bound * 256 ^ Z.of_nat (length bs).
Proof.
  revert acc bound. induction bs as [| b bs IH]; intros acc bound Hacc.
  - simpl. lia.
  - cbn [fold_left length]. rewrite Nat2Z.inj_succ, Z.pow_succ_r by lia.
    pose proof (byte_value_range b) as Hb.
    replace (bound * (256 * 256 ^ Z.of_nat (length bs)))
      with ((256 * bound) * 256 ^ Z.of_nat (length bs)) by ring.
    apply IH. lia.
Qed.

(** A byte string of length [n] is a number below [256^n]. *)
Lemma big_endian_bound bs :
  0 <= Hex.big_endian bs < 256 ^ Z.of_nat (length bs).
Proof.
  pose proof (fold_bytes_bound bs 0 1) as H.
  rewrite Z.mul_1_l in H. apply H. lia.
Qed.

Lemma sample_keccak_length bs : length (sample_keccak bs) = 32%nat.
Proof.
  unfold sample_keccak. rewrite length_take, length_app, repeat_length. lia.
Qed.

(** ** Signal hashes and witnesses *)

Section SignalFacts.

Variable toUtf8Bytes : string -> list byte.
Variable keccak : list byte -> list byte.

Lemma genSignalHash_value signal :
  keccak (toUtf8Bytes signal) <> [] ->
  RLN.genSignalHash toUtf8Bytes keccak signal
  = Ok (Z.shiftr (Hex.big_endian (keccak (toUtf8Bytes signal))) 8).
Proof.
  intros Hne. unfold RLN.genSignalHash, RLN.keccak256.
  rewrite arrayify_hexlify. cbn [mbind result_bind].
  rewrite (BigInt_hexlify _ Hne). reflexivity.
Qed.

Lemma genSignalHash_returns signal :
  (forall bs, length (keccak bs) = 32%nat) ->
  RLN.genSignalHash toUtf8Bytes keccak signal
  = Ok (Z.shiftr (Hex.big_endian (keccak (toUtf8Bytes signal))) 8).
Proof.
  intros Hlen. apply genSignalHash_value.
  intros E. specialize (Hlen (toUtf8Bytes signal)). rewrite E in Hlen.
  discriminate Hlen.
Qed.

(** C4: [genSignalHash(signal)] is the Keccak-256 digest of the UTF-8
    bytes of [signal], read as a big-endian integer and shifted right by 8
    bits; the result is below the field prime, and equal signals have
    equal hashes. *)
Theorem genSignalHash_spec (signal : string) :
  (forall bs, length (keccak bs) = 32%nat) ->
  let h := Z.shiftr (Hex.big_endian (keccak (toUtf8Bytes signal))) 8 in
  RLN.genSignalHash toUtf8Bytes keccak signal = Ok h
  /\ 0 <= h < 2 ^ 248
  /\ h < SNARK_FIELD_SIZE
  /\ forall signal',
       signal' = signal ->
       RLN.genSignalHash toUtf8Bytes keccak signal'
       = RLN.genSignalHash toUtf8Bytes keccak signal.
Proof.
  intros Hlen h.
  assert (Hh : 0 <= h < 2 ^ 248).
  { subst h. rewrite Z.shiftr_div_pow2 by lia.
    pose proof (big_endian_bound (keccak (toUtf8Bytes signal))) as Hb.
    rewrite Hlen in Hb.
    change (256 ^ Z.of_nat 32) with (2 ^ 8 * 2 ^ 248) in Hb.
    split.
    - apply Z.div_pos; lia.
    - apply Z.div_lt_upper_bound; lia. }
  split; [apply genSignalHash_returns; exact Hlen |].
  split; [exact Hh |].
  split.
  - assert (2 ^ 248 < SNARK_FIELD_SIZE) by (vm_compute; reflexivity). lia.
  - intros signal' ->. reflexivity.
Qed.

End SignalFacts.

Lemma genSignalHash_spec_witness :
  let h := Z.shiftr (Hex.big_endian (sample_keccak (list_byte_of_string "hello"))) 8 in
  RLN.genSignalHash list_byte_of_string sample_keccak "hello" = Ok h
  /\ 0 <= h < 2 ^ 248
  /\ h < SNARK_FIELD_SIZE
  /\ forall signal',
       signal' = "hello"%string ->
       RLN.genSignalHash list_byte_of_string sample_keccak signal'
       = RLN.genSignalHash list_byte_of_string sample_keccak "hello".
Proof.
  apply (genSignalHash_spec list_byte_of_string sample_keccak "hello").
  exact sample_keccak_length.
Defined.

Section WitnessFacts.

Variable toUtf8Bytes : string -> list byte.
Variable keccak : list byte -> list byte.

(** C5: [genWitness] returns the identity secret, the proof's siblings and
    path indices in their order, [x], the epoch and the identifier, where
    [x] is [genSignalHash(signal)] when [shouldHash] is true or left out and
    the signal itself when [shouldHash] is false. *)
Theorem genWitness_spec (identitySecret : Z) (merkleProof : RLN.MerkleProof)
    (epoch : RLN.StrBigInt) (signal : string) (rlnIdentifier : Z) :
  (forall bs, length (keccak bs) = 32%nat) ->
  let gen := RLN.genWitness toUtf8Bytes keccak identitySecret merkleProof epoch
               signal rlnIdentifier in
  let bundle x :=
    RLN.mkWitness identitySecret (RLN.siblings merkleProof)
      (RLN.pathIndices merkleProof) x epoch rlnIdentifier in
  (exists h, RLN.genSignalHash toUtf8Bytes keccak signal = Ok h
     /\ gen (Some true) = Ok (bundle (RLN.Big h)))
  /\ gen None = gen (Some true)
  /\ gen (Some false) = Ok (bundle (RLN.Str signal)).
Proof.
  intros Hlen gen bundle.
  pose proof (genSignalHash_returns toUtf8Bytes keccak signal Hlen) as Hh.
  split; [| split; reflexivity].
  eexists. split; [exact Hh |].
  subst gen bundle. unfold RLN.genWitness. simpl. rewrite Hh. reflexivity.
Qed.

End WitnessFacts.

Lemma genWitness_spec_witness :
  let gen := RLN.genWitness list_byte_of_string sample_keccak 5 sample_proof
               (RLN.Big 7) "hello" 42 in
  let bundle x := RLN.mkWitness 5 [11; 7] [1; 0] x (RLN.Big 7) 42 in
  (exists h, RLN.genSignalHash list_byte_of_string sample_keccak "hello" = Ok h
     /\ gen (Some true) = Ok (bundle (RLN.Big h)))
  /\ gen None = gen (Some true)
  /\ gen (Some false) = Ok (bundle (RLN.Str "hello")).
Proof.
  apply (genWitness_spec list_byte_of_string sample_keccak 5 sample_proof
           (RLN.Big 7) "hello" 42).
  exact sample_keccak_length.
Defined.

(** ** Proofs and public signals *)

Section BackendFacts.

Variable Proof : Type.
Variable fullProve :
  RLN.Witness -> string -> string -> result (Proof * list RLN.StrBigInt).
Variable verify : string -> list (option RLN.StrBigInt) -> Proof -> result bool.

Lemma six_signals (signals : list RLN.StrBigInt) :
  length signals = 6%nat ->
  [signals !! 0%nat; signals !! 1%nat; signals !! 2%nat;
   signals !! 3%nat; signals !! 4%nat; signals !! 5%nat]
  = Some <$> signals.
Proof.
  intros Hlen.
  do 6 (destruct signals as [| ? signals]; [discriminate Hlen |]).
  destruct signals; [reflexivity | discriminate Hlen].
Qed.

(** C10: [genProof] names the backend's six signals [yShare], [merkleRoot],
    [internalNullifier], [signalHash], [epoch], [rlnIdentifier] from indices
    0 to 5, [verifyProof] hands the fields of any full proof to the backend
    in that order, and so a proof [genProof] returned goes back to the
    backend with the signal sequence the backend produced. *)
Theorem genProof_verifyProof (witness : RLN.Witness)
    (wasmFilePath finalZkeyPath verificationKey : string)
    (proof : Proof) (signals : list RLN.StrBigInt) :
  fullProve witness wasmFilePath finalZkeyPath = Ok (proof, signals) ->
  length signals = 6%nat ->
  exists fullProof,
    RLN.genProof Proof fullProve witness wasmFilePath finalZkeyPath = Ok fullProof
    /\ RLN.proof fullProof = proof
    /\ RLN.yShare (RLN.publicSignals fullProof) = signals !! 0%nat
    /\ RLN.merkleRoot (RLN.publicSignals fullProof) = signals !! 1%nat
    /\ RLN.internalNullifier (RLN.publicSignals fullProof) = signals !! 2%nat
    /\ RLN.signalHash (RLN.publicSignals fullProof) = signals !! 3%nat
    /\ RLN.ps_epoch (RLN.publicSignals fullProof) = signals !! 4%nat
    /\ RLN.rlnIdentifier (RLN.publicSignals fullProof) = signals !! 5%nat
    /\ (forall fp : RLN.RLNFullProof Proof,
          RLN.verifyProof Proof verify verificationKey fp
          = verify verificationKey
              [RLN.yShare (RLN.publicSignals fp);
               RLN.merkleRoot (RLN.publicSignals fp);
               RLN.internalNullifier (RLN.publicSignals fp);
               RLN.signalHash (RLN.publicSignals fp);
               RLN.ps_epoch (RLN.publicSignals fp);
               RLN.rlnIdentifier (RLN.publicSignals fp)]
              (RLN.proof fp))
    /\ RLN.verifyProof_signals (RLN.publicSignals fullProof) = Some <$> signals
    /\ RLN.verifyProof Proof verify verificationKey fullProof
       = verify verificationKey (Some <$> signals) proof.
Proof.
  intros Hprove Hlen.
  eexists. split.
  { unfold RLN.genProof. rewrite Hprove. reflexivity. }
  simpl. repeat (split; [reflexivity |]).
  unfold RLN.verifyProof, RLN.verifyProof_signals. simpl.
  rewrite (six_signals signals Hlen). split; reflexivity.
Qed.

End BackendFacts.

Lemma genProof_verifyProof_witness :
  exists fullProof,
    RLN.genProof Z sample_fullProve sample_witness "rln.wasm" "rln.zkey" = Ok fullProof
    /\ RLN.verifyProof_signals (RLN.publicSignals fullProof) = Some <$> sample_signals
    /\ RLN.verifyProof Z sample_verify "vkey" fullProof = Ok true.
Proof.
  destruct (genProof_verifyProof Z sample_fullProve sample_verify sample_witness
              "rln.wasm" "rln.zkey" "vkey" 5 sample_signals eq_refl eq_refl)
    as [fp [Hgen [_ [_ [_ [_ [_ [_ [_ [_ [Hsig Hver]]]]]]]]]]].
  exists fp. split; [exact Hgen |]. split; [exact Hsig |].
  rewrite Hver. reflexivity.
Defined.

(** * Further properties *)

(** ** The Poseidon handle over a run of calls *)

Section HandleRuns.

Variable p : Z.
Variable buildPoseidon : list Z -> Z.

Lemma settle_handle_ok st :
  RLN.handle_ok buildPoseidon st ->
  RLN.handle_ok buildPoseidon (RLN.settle buildPoseidon st).
Proof.
  intros H. unfold RLN.settle.
  destruct (RLN.scheduled st); [exact H | right; reflexivity].
Qed.

Lemma await_handle_ok k st :
  RLN.handle_ok buildPoseidon st ->
  RLN.handle_ok buildPoseidon (Nat.iter k (RLN.settle buildPoseidon) st).
Proof.
  intros H. induction k as [| k IH]; simpl; [exact H |].
  apply settle_handle_ok. exact IH.
Qed.

Lemma poseidon_handle_ok st input :
  RLN.handle_ok buildPoseidon st ->
  RLN.handle_ok buildPoseidon (RLN.poseidon st input).1.
Proof.
  intros H. destruct (RLN._poseidon st) as [h |] eqn:E.
  - rewrite (poseidon_set _ _ _ E). exact H.
  - rewrite (poseidon_unset _ _ E). left. reflexivity.
Qed.

Lemma genNullifier_handle_ok k st a1 rlnIdentifier :
  RLN.handle_ok buildPoseidon st ->
  RLN.handle_ok buildPoseidon (RLN.genNullifier buildPoseidon k st a1 rlnIdentifier).1.
Proof.
  intros H. unfold RLN.genNullifier, RLN.await. simpl.
  apply await_handle_ok, poseidon_handle_ok. exact H.
Qed.

(** What a call returns and the state it leaves, handle set or unset. *)
Lemma calculateOutput_set_run k1 k2 k3 st identitySecret epoch rlnIdentifier x :
  RLN._poseidon st = Some buildPoseidon ->
  RLN.calculateOutput p buildPoseidon k1 k2 k3 st identitySecret epoch rlnIdentifier x
  = (Nat.iter k3 (RLN.settle buildPoseidon)
       (Nat.iter k2 (RLN.settle buildPoseidon)
          (Nat.iter k1 (RLN.settle buildPoseidon) st)),
     Ok ((buildPoseidon [identitySecret; epoch] * x + identitySecret) mod p,
         buildPoseidon [buildPoseidon [identitySecret; epoch]; rlnIdentifier])).
Proof.
  intros H. unfold RLN.calculateOutput, RLN.genNullifier.
  rewrite (poseidon_set _ _ _ H). unfold RLN.await at 1. simpl.
  rewrite (poseidon_set _ buildPoseidon) by (apply await_keeps_handle; exact H).
  reflexivity.
Qed.

Lemma calculateOutput_unset_run k1 k2 k3 st identitySecret epoch rlnIdentifier x :
  RLN._poseidon st = None ->
  RLN.calculateOutput p buildPoseidon k1 k2 k3 st identitySecret epoch rlnIdentifier x
  = (Nat.iter k1 (RLN.settle buildPoseidon)
       (RLN.mkState None (S (RLN.scheduled st))),
     Err TypeError).
Proof.
  intros H. unfold RLN.calculateOutput. rewrite (poseidon_unset _ _ H). reflexivity.
Qed.

(** X1: whatever is called and however the scheduled continuations
    interleave, [_poseidon] is either unset or the built hash: the property
    holds initially and [poseidon], a continuation, [genNullifier] and
    [calculateOutput] all keep it. *)
Theorem handle_ok_invariant :
  RLN.handle_ok buildPoseidon (RLN.mkState None 0)
  /\ forall st,
       RLN.handle_ok buildPoseidon st ->
       RLN.handle_ok buildPoseidon (RLN.settle buildPoseidon st)
       /\ (forall input, RLN.handle_ok buildPoseidon (RLN.poseidon st input).1)
       /\ (forall k a1 rlnIdentifier,
             RLN.handle_ok buildPoseidon
               (RLN.genNullifier buildPoseidon k st a1 rlnIdentifier).1)
       /\ (forall k1 k2 k3 identitySecret epoch rlnIdentifier x,
             RLN.handle_ok buildPoseidon
               (RLN.calculateOutput p buildPoseidon k1 k2 k3 st
                  identitySecret epoch rlnIdentifier x).1).
Proof.
  split; [left; reflexivity |].
  intros st H.
  split; [apply settle_handle_ok; exact H |].
  split; [intros input; apply poseidon_handle_ok; exact H |].
  split; [intros k a1 r; apply genNullifier_handle_ok; exact H |].
  intros k1 k2 k3 s e r x. destruct H as [Hn | Hs].
  - rewrite (calculateOutput_unset_run _ _ _ _ _ _ _ _ Hn).
    apply await_handle_ok. left. reflexivity.
  - rewrite (calculateOutput_set_run _ _ _ _ _ _ _ _ Hs).
    right. do 3 apply await_keeps_handle. exact Hs.
Qed.

Lemma settle_scheduled st :
  (RLN.scheduled (RLN.settle buildPoseidon st) <= RLN.scheduled st)%nat.
Proof. unfold RLN.settle. destruct (RLN.scheduled st) eqn:E; simpl; lia. Qed.

Lemma await_scheduled k st :
  (RLN.scheduled (Nat.iter k (RLN.settle buildPoseidon) st) <= RLN.scheduled st)%nat.
Proof.
  induction k as [| k IH]; simpl; [lia |].
  pose proof (settle_scheduled (Nat.iter k (RLN.settle buildPoseidon) st)). lia.
Qed.

(** X2: once the handle is set it stays set, and a call with the handle
    set schedules no further build: after [calculateOutput] the handle is
    still the built hash and no more continuations are pending than
    before. *)
Theorem calculateOutput_keeps_handle k1 k2 k3 st identitySecret epoch rlnIdentifier x :
  RLN._poseidon st = Some buildPoseidon ->
  let st' := (RLN.calculateOutput p buildPoseidon k1 k2 k3 st
                identitySecret epoch rlnIdentifier x).1 in
  RLN._poseidon st' = Some buildPoseidon
  /\ (RLN.scheduled st' <= RLN.scheduled st)%nat.
Proof.
  intros H st'. subst st'.
  rewrite (calculateOutput_set_run _ _ _ _ _ _ _ _ H). simpl. split.
  - do 3 apply await_keeps_handle. exact H.
  - pose proof (await_scheduled k3
                  (Nat.iter k2 (RLN.settle buildPoseidon)
                     (Nat.iter k1 (RLN.settle buildPoseidon) st))).
    pose proof (await_scheduled k2 (Nat.iter k1 (RLN.settle buildPoseidon) st)).
    pose proof (await_scheduled k1 st). lia.
Qed.

(** X3: the build is not started at most once.  While no continuation has
    run, every call of [poseidon] fails with a TypeError and schedules one
    more build: after [n] calls [n] more builds are pending and the handle
    is still unset. *)
Theorem poseidon_schedules_every_call (n : nat) st input :
  RLN._poseidon st = None ->
  Nat.iter n (fun s => (RLN.poseidon s input).1) st
  = RLN.mkState None (n + RLN.scheduled st)
  /\ (RLN.poseidon (Nat.iter n (fun s => (RLN.poseidon s input).1) st) input).2
     = Err TypeError.
Proof.
  intros H.
  assert (Hn : Nat.iter n (fun s => (RLN.poseidon s input).1) st
               = RLN.mkState None (n + RLN.scheduled st)).
  { induction n as [| n IH]; simpl.
    - destruct st as [h s]. simpl in H. subst h. reflexivity.
    - rewrite IH. rewrite poseidon_unset by reflexivity. reflexivity. }
  split; [exact Hn |].
  rewrite Hn. rewrite poseidon_unset by reflexivity. reflexivity.
Qed.

Lemma await_sets_handle k n :
  RLN._poseidon
    (Nat.iter (S k) (RLN.settle buildPoseidon) (RLN.mkState None (S n)))
  = Some buildPoseidon.
Proof.
  induction k as [| k IH].
  - reflexivity.
  - change (Nat.iter (S (S k)) (RLN.settle buildPoseidon) (RLN.mkState None (S n)))
      with (RLN.settle buildPoseidon
              (Nat.iter (S k) (RLN.settle buildPoseidon) (RLN.mkState None (S n)))).
    apply settle_keeps_handle. exact IH.
Qed.

(** X4: a retry works once a continuation has run.  After a first
    [calculateOutput] on an unset handle, the next call returns the pair
    [(y, nullifier)] if at least one scheduled continuation ran in between,
    and fails with a TypeError again if none did. *)
Theorem calculateOutput_retry k2 k3 k1' k2' k3' st
    identitySecret epoch rlnIdentifier x identitySecret' epoch' rlnIdentifier' x' :
  RLN._poseidon st = None ->
  (forall k1,
     (0 < k1)%nat ->
     (RLN.calculateOutput p buildPoseidon k1' k2' k3'
        (RLN.calculateOutput p buildPoseidon k1 k2 k3 st
           identitySecret epoch rlnIdentifier x).1
        identitySecret' epoch' rlnIdentifier' x').2
     = Ok ((buildPoseidon [identitySecret'; epoch'] * x' + identitySecret') mod p,
           buildPoseidon [buildPoseidon [identitySecret'; epoch']; rlnIdentifier']))
  /\ (RLN.calculateOutput p buildPoseidon k1' k2' k3'
        (RLN.calculateOutput p buildPoseidon 0 k2 k3 st
           identitySecret epoch rlnIdentifier x).1
        identitySecret' epoch' rlnIdentifier' x').2
     = Err TypeError.
Proof.
  intros H. split.
  - intros k1 Hk. apply calculateOutput_set.
    rewrite (calculateOutput_unset_run _ _ _ _ _ _ _ _ H). simpl.
    destruct k1 as [| k1]; [lia |]. apply await_sets_handle.
  - apply calculateOutput_unset.
    rewrite (calculateOutput_unset_run _ _ _ _ _ _ _ _ H). reflexivity.
Qed.

End HandleRuns.

Lemma handle_ok_invariant_witness :
  RLN.handle_ok sample_hash
    (RLN.calculateOutput 7 sample_hash 1 0 2 (RLN.mkState None 3) 5 2 1 3).1.
Proof.
  refine (proj2 (proj2 (proj2 (proj2 (handle_ok_invariant 7 sample_hash)
                                 (RLN.mkState None 3) _)))
            1%nat 0%nat 2%nat 5 2 1 3).
  left. reflexivity.
Defined.

Lemma calculateOutput_keeps_handle_witness :
  let st' := (RLN.calculateOutput 7 sample_hash 1 1 0
                (RLN.mkState (Some sample_hash) 2) 5 2 1 3).1 in
  RLN._poseidon st' = Some sample_hash /\ (RLN.scheduled st' <= 2)%nat.
Proof.
  apply (calculateOutput_keeps_handle 7 sample_hash 1 1 0
           (RLN.mkState (Some sample_hash) 2) 5 2 1 3).
  reflexivity.
Defined.

Lemma poseidon_schedules_every_call_witness :
  Nat.iter 3 (fun s => (RLN.poseidon s [5; 2]).1) (RLN.mkState None 0)
  = RLN.mkState None 3.
Proof.
  exact (proj1 (poseidon_schedules_every_call 3 (RLN.mkState None 0) [5; 2] eq_refl)).
Defined.

Lemma calculateOutput_retry_witness :
  (RLN.calculateOutput 7 sample_hash 0 0 0
     (RLN.calculateOutput 7 sample_hash 1 0 0 (RLN.mkState None 0) 5 2 1 3).1
     5 2 1 4).2
  = Ok (3, 14).
Proof.
  refine (proj1 (calculateOutput_retry 7 sample_hash 0 0 0 0 0 (RLN.mkState None 0)
                   5 2 1 3 5 2 1 4 eq_refl) 1%nat _).
  lia.
Defined.


(** ** Shares of one secret *)

Section ShareFacts.

Variable p : Z.
Variable buildPoseidon : list Z -> Z.

Lemma calculateOutput_ok_pair k1 k2 k3 st identitySecret epoch rlnIdentifier x y n :
  RLN.handle_ok buildPoseidon st ->
  (RLN.calculateOutput p buildPoseidon k1 k2 k3 st identitySecret epoch rlnIdentifier x).2
  = Ok (y, n) ->
  y = (buildPoseidon [identitySecret; epoch] * x + identitySecret) mod p
  /\ n = buildPoseidon [buildPoseidon [identitySecret; epoch]; rlnIdentifier].
Proof.
  intros [Hn | Hs] H.
  - rewrite (calculateOutput_unset _ _ _ _ _ _ _ _ _ _ Hn) in H. discriminate H.
  - rewrite (calculateOutput_set _ _ _ _ _ _ _ _ _ _ Hs) in H.
    injection H as <- <-. split; reflexivity.
Qed.

(** X5: the nullifier does not depend on the signal.  Two outputs computed
    from one secret, epoch and identifier carry the same nullifier whatever
    [x1] and [x2] are, so a repeated broadcast within an epoch shows. *)
Theorem nullifier_independent_of_x
    k1 k2 k3 k1' k2' k3' st st' identitySecret epoch rlnIdentifier x1 x2 y1 n1 y2 n2 :
  RLN.handle_ok buildPoseidon st ->
  RLN.handle_ok buildPoseidon st' ->
  (RLN.calculateOutput p buildPoseidon k1 k2 k3 st identitySecret epoch rlnIdentifier x1).2
  = Ok (y1, n1) ->
  (RLN.calculateOutput p buildPoseidon k1' k2' k3' st' identitySecret epoch rlnIdentifier x2).2
  = Ok (y2, n2) ->
  n1 = n2.
Proof.
  intros Hst Hst' H1 H2.
  destruct (calculateOutput_ok_pair _ _ _ _ _ _ _ _ _ _ Hst H1) as [_ ->].
  destruct (calculateOutput_ok_pair _ _ _ _ _ _ _ _ _ _ Hst' H2) as [_ ->].
  reflexivity.
Qed.

(** X6: the identifier does not enter the share.  [a1] hashes the secret
    and the epoch only, so outputs computed under two different
    identifiers still lie on one line: [retrieveSecret] gives the secret
    back from them as soon as the abscissas differ modulo [p]. *)
Theorem retrieveSecret_across_identifiers
    k1 k2 k3 k1' k2' k3' st st' identitySecret epoch
    rlnIdentifier1 rlnIdentifier2 x1 x2 y1 n1 y2 n2 :
  Z.prime p ->
  RLN.handle_ok buildPoseidon st ->
  RLN.handle_ok buildPoseidon st' ->
  x1 mod p <> x2 mod p ->
  (RLN.calculateOutput p buildPoseidon k1 k2 k3 st identitySecret epoch rlnIdentifier1 x1).2
  = Ok (y1, n1) ->
  (RLN.calculateOutput p buildPoseidon k1' k2' k3' st' identitySecret epoch rlnIdentifier2 x2).2
  = Ok (y2, n2) ->
  RLN.retrieveSecret p x1 x2 y1 y2 = Ok (identitySecret mod p).
Proof.
  intros Hp Hst Hst' Hx H1 H2.
  destruct (calculateOutput_ok_pair _ _ _ _ _ _ _ _ _ _ Hst H1) as [-> _].
  destruct (calculateOutput_ok_pair _ _ _ _ _ _ _ _ _ _ Hst' H2) as [-> _].
  unfold RLN.retrieveSecret.
  rewrite (Fq_slope p _ _ _ _ Hp Hx). simpl.
  rewrite Fq_intercept. reflexivity.
Qed.

End ShareFacts.

Lemma nullifier_independent_of_x_witness :
  (RLN.calculateOutput 7 sample_hash 0 0 0 (RLN.mkState (Some sample_hash) 0) 5 2 1 3).2
  = Ok (0, 14)
  /\ (RLN.calculateOutput 7 sample_hash 0 0 0 (RLN.mkState (Some sample_hash) 0) 5 2 1 4).2
     = Ok (3, 14)
  /\ 14 = 14.
Proof.
  split; [reflexivity |]. split; [reflexivity |].
  apply (nullifier_independent_of_x 7 sample_hash 0 0 0 0 0 0
           (RLN.mkState (Some sample_hash) 0) (RLN.mkState (Some sample_hash) 0)
           5 2 1 3 4 0 14 3 14).
  - right. reflexivity.
  - right. reflexivity.
  - reflexivity.
  - reflexivity.
Defined.

Lemma retrieveSecret_across_identifiers_witness :
  RLN.retrieveSecret 7 3 4 0 3 = Ok (5 mod 7).
Proof.
  apply (retrieveSecret_across_identifiers 7 sample_hash 0 0 0 0 0 0
           (RLN.mkState (Some sample_hash) 0) (RLN.mkState (Some sample_hash) 0)
           5 2 1 9 3 4 0 14 3 22).
  - exact prime_7.
  - right. reflexivity.
  - right. reflexivity.
  - vm_compute. discriminate.
  - reflexivity.
  - reflexivity.
Defined.

(** ** Recovering a secret *)

Section SecretFacts.

Variable p : Z.
Hypothesis Hp : Z.prime p.

(** A division that succeeds returns the canonical [q] with [q * b]
    congruent to [a]. *)
Lemma Fq_div_spec a b :
  b mod p <> 0 ->
  exists q, Fq.div p a b = Ok q /\ 0 <= q < p /\ (q * b) mod p = a mod p.
Proof.
  intros Hb. pose proof (Z.prime_ge_2 p Hp) as Hp2.
  exists (Fq.normalize p (a * Z.invmod b p)).
  split; [apply Fq_div_defined; exact Hb |].
  split; [apply Fq_normalize_range; lia |].
  unfold Fq.normalize. rewrite Zmult_mod_idemp_l.
  replace (a * Z.invmod b p * b) with (a * (Z.invmod b p * b)) by ring.
  rewrite <- Zmult_mod_idemp_r. rewrite (Z.invmod_prime b p Hp Hb).
  rewrite Z.mul_1_r. reflexivity.
Qed.

Lemma cong_divide a b : a mod p = b mod p <-> (p | a - b).
Proof.
  pose proof (Z.prime_ge_2 p Hp) as Hp2.
  rewrite Z.cong_iff_0. apply Z.mod_divide. lia.
Qed.

Lemma slope_unique q q' d :
  0 <= q < p -> 0 <= q' < p -> d mod p <> 0 ->
  (q * d) mod p = (q' * d) mod p -> q = q'.
Proof.
  intros Hq Hq' Hd H. apply cong_divide in H.
  replace (q * d - q' * d) with ((q - q') * d) in H by ring.
  apply (Z.divide_prime_mul _ _ _ Hp) in H. destruct H as [H | H].
  - destruct H as [k Hk]. assert (k = 0) by nia. lia.
  - exfalso. apply Hd.
    apply Z.mod_divide; [pose proof (Z.prime_ge_2 p Hp); lia | exact H].
Qed.

(** X7: the order of the two shares does not matter.  Swapping
    [(x1, y1)] with [(x2, y2)] gives the same result, the same secret or
    the same DivisionByZero, for all integers, reduced or not. *)
Theorem retrieveSecret_swap x1 x2 y1 y2 :
  RLN.retrieveSecret p x1 x2 y1 y2 = RLN.retrieveSecret p x2 x1 y2 y1.
Proof.
  pose proof (Z.prime_ge_2 p Hp) as Hp2.
  unfold RLN.retrieveSecret.
  destruct (Z.eq_dec ((x2 - x1) mod p) 0) as [Hz | Hnz].
  - assert (Hz' : (x1 - x2) mod p = 0).
    { apply Z.cong_iff_0. symmetry. apply Z.cong_iff_0. exact Hz. }
    assert (E1 : Fq.div p (Fq.sub p y2 y1) (Fq.sub p x2 x1) = Err DivisionByZero).
    { apply Fq_div_fails_iff. rewrite Fq_sub_mod. exact Hz. }
    assert (E2 : Fq.div p (Fq.sub p y1 y2) (Fq.sub p x1 x2) = Err DivisionByZero).
    { apply Fq_div_fails_iff. rewrite Fq_sub_mod. exact Hz'. }
    rewrite E1, E2. reflexivity.
  - assert (Hnz' : (x1 - x2) mod p <> 0).
    { intros E. apply Hnz. apply Z.cong_iff_0. symmetry. apply Z.cong_iff_0. exact E. }
    destruct (Fq_div_spec (Fq.sub p y2 y1) (Fq.sub p x2 x1)) as [q [E1 [Hq C1]]].
    { rewrite Fq_sub_mod. exact Hnz. }
    destruct (Fq_div_spec (Fq.sub p y1 y2) (Fq.sub p x1 x2)) as [q' [E2 [Hq' C2]]].
    { rewrite Fq_sub_mod. exact Hnz'. }
    rewrite E1, E2. cbn [mbind result_bind]. f_equal.
    unfold Fq.sub, Fq.normalize in C1, C2.
    rewrite Zmult_mod_idemp_r, Zmod_mod in C1, C2.
    assert (q = q') as <-.
    { apply (slope_unique q q' (x2 - x1) Hq Hq' Hnz).
      rewrite C1. apply cong_divide. apply cong_divide in C2.
      destruct C2 as [k Hk]. exists k. lia. }
    unfold Fq.sub, Fq.mul, Fq.normalize. rewrite !Zmod_mod.
    rewrite !Zminus_mod_idemp_r.
    apply cong_divide. apply cong_divide in C1. destruct C1 as [k Hk].
    exists k. lia.
Qed.

End SecretFacts.

Lemma retrieveSecret_swap_witness :
  RLN.retrieveSecret 7 3 4 0 3 = RLN.retrieveSecret 7 4 3 3 0.
Proof. apply (retrieveSecret_swap 7 prime_7 3 4 0 3). Defined.

(** ** What a signal hash keeps of the digest *)

Lemma fold_bytes_shift bs acc :
  fold_left (fun acc b => 256 * acc + Hex.byte_value b) bs acc
  = acc * 256 ^ Z.of_nat (length bs) + Hex.big_endian bs.
Proof.
  unfold Hex.big_endian. revert acc.
  induction bs as [| b bs IH]; intros acc.
  - simpl. lia.
  - cbn [fold_left length]. rewrite (IH (256 * acc + Hex.byte_value b)).
    rewrite (IH (256 * 0 + Hex.byte_value b)).
    rewrite Nat2Z.inj_succ, Z.pow_succ_r by lia. ring.
Qed.

Lemma big_endian_cons b bs :
  Hex.big_endian (b :: bs)
  = Hex.byte_value b * 256 ^ Z.of_nat (length bs) + Hex.big_endian bs.
Proof.
  unfold Hex.big_endian at 1. cbn [fold_left].
  rewrite fold_bytes_shift.
  replace (256 * 0 + Hex.byte_value b) with (Hex.byte_value b) by lia.
  reflexivity.
Qed.

Lemma big_endian_snoc bs b :
  Hex.big_endian (bs ++ [b]) = 256 * Hex.big_endian bs + Hex.byte_value b.
Proof. unfold Hex.big_endian. rewrite fold_left_app. reflexivity. Qed.

Lemma byte_value_inj b1 b2 : Hex.byte_value b1 = Hex.byte_value b2 -> b1 = b2.
Proof.
  unfold Hex.byte_value. intros H. apply N2Z.inj in H.
  pose proof (Byte.of_to_N b1) as H1. rewrite H in H1.
  rewrite Byte.of_to_N in H1. congruence.
Qed.

(** Byte strings of one length that read as the same number are equal. *)
Lemma big_endian_inj bs1 bs2 :
  length bs1 = length bs2 ->
  Hex.big_endian bs1 = Hex.big_endian bs2 -> bs1 = bs2.
Proof.
  revert bs2. induction bs1 as [| b1 bs1 IH]; intros [| b2 bs2] Hlen H;
    try discriminate Hlen; [reflexivity |].
  injection Hlen as Hlen.
  rewrite !big_endian_cons in H. rewrite <- Hlen in H.
  pose proof (big_endian_bound bs1) as B1.
  pose proof (big_endian_bound bs2) as B2. rewrite <- Hlen in B2.
  pose proof (byte_value_range b1) as V1.
  pose proof (byte_value_range b2) as V2.
  assert (Hb : Hex.byte_value b1 = Hex.byte_value b2) by nia.
  rewrite Hb in H.
  f_equal; [apply byte_value_inj; exact Hb | apply IH; [exact Hlen | lia]].
Qed.

Lemma take_31_of_32 (bs : list byte) :
  length bs = 32%nat -> exists b, bs = take 31 bs ++ [b].
Proof.
  intros Hlen. pose proof (take_drop 31 bs) as Htd.
  assert (Hd : length (drop 31 bs) = 1%nat) by (rewrite length_drop; lia).
  destruct (drop 31 bs) as [| b [| ? ?]]; try discriminate Hd.
  exists b. symmetry. exact Htd.
Qed.

Section DigestFacts.

Variable toUtf8Bytes : string -> list byte.
Variable keccak : list byte -> list byte.
Hypothesis keccak_length : forall bs, length (keccak bs) = 32%nat.

Lemma genSignalHash_prefix signal :
  RLN.genSignalHash toUtf8Bytes keccak signal
  = Ok (Hex.big_endian (take 31 (keccak (toUtf8Bytes signal)))).
Proof.
  rewrite (genSignalHash_returns toUtf8Bytes keccak signal keccak_length).
  f_equal.
  destruct (take_31_of_32 _ (keccak_length (toUtf8Bytes signal))) as [b Hb].
  rewrite Hb at 1. rewrite big_endian_snoc.
  rewrite Z.shiftr_div_pow2 by lia. change (2 ^ 8) with 256.
  pose proof (byte_value_range b) as Hv.
  symmetry. apply (Z.div_unique _ 256 _ (Hex.byte_value b)); lia.
Qed.

(** X8: the shift drops the digest's last byte.  [genSignalHash(signal)]
    is the big-endian value of the first 31 bytes of the digest, and two
    signals have the same hash exactly when their digests agree on those 31
    bytes: a difference in the last byte alone is lost. *)
Theorem genSignalHash_first_31_bytes signal :
  RLN.genSignalHash toUtf8Bytes keccak signal
  = Ok (Hex.big_endian (take 31 (keccak (toUtf8Bytes signal))))
  /\ forall signal',
       RLN.genSignalHash toUtf8Bytes keccak signal'
       = RLN.genSignalHash toUtf8Bytes keccak signal
       <-> take 31 (keccak (toUtf8Bytes signal'))
           = take 31 (keccak (toUtf8Bytes signal)).
Proof.
  split; [apply genSignalHash_prefix |].
  intros signal'. rewrite !genSignalHash_prefix. split.
  - intros H. injection H as H. apply big_endian_inj; [| exact H].
    rewrite !length_take, !keccak_length. reflexivity.
  - intros ->. reflexivity.
Qed.

End DigestFacts.

Lemma genSignalHash_first_31_bytes_witness :
  RLN.genSignalHash list_byte_of_string sample_keccak "hello"
  = Ok (Hex.big_endian (take 31 (sample_keccak (list_byte_of_string "hello")))).
Proof.
  exact (proj1 (genSignalHash_first_31_bytes list_byte_of_string sample_keccak
                  sample_keccak_length "hello")).
Defined.

(** ** Public signals of any length *)

Section SignalCountFacts.

Variable Proof : Type.
Variable fullProve :
  RLN.Witness -> string -> string -> result (Proof * list RLN.StrBigInt).
Variable verify : string -> list (option RLN.StrBigInt) -> Proof -> result bool.

(** X9: [genProof] does not check how many signals the backend returned.
    Whatever their number, the proof it builds makes [verifyProof] hand the
    backend exactly six entries: the first six signals, with [undefined] in
    the place of each one that is missing; a seventh and later signals are
    dropped. *)
Theorem verifyProof_six_entries (witness : RLN.Witness)
    (wasmFilePath finalZkeyPath : string) (proof : Proof)
    (signals : list RLN.StrBigInt) :
  fullProve witness wasmFilePath finalZkeyPath = Ok (proof, signals) ->
  exists fullProof,
    RLN.genProof Proof fullProve witness wasmFilePath finalZkeyPath = Ok fullProof
    /\ RLN.verifyProof_signals (RLN.publicSignals fullProof)
       = (Some <$> take 6 signals) ++ replicate (6 - length signals) None
    /\ length (RLN.verifyProof_signals (RLN.publicSignals fullProof)) = 6%nat
    /\ forall verificationKey,
         RLN.verifyProof Proof verify verificationKey fullProof
         = verify verificationKey
             ((Some <$> take 6 signals) ++ replicate (6 - length signals) None)
             proof.
Proof.
  intros Hprove. eexists. split.
  { unfold RLN.genProof. rewrite Hprove. reflexivity. }
  assert (E : RLN.verifyProof_signals
                (RLN.mkPublicSignals (signals !! 0%nat) (signals !! 1%nat)
                   (signals !! 2%nat) (signals !! 3%nat) (signals !! 4%nat)
                   (signals !! 5%nat))
              = (Some <$> take 6 signals) ++ replicate (6 - length signals) None).
  { do 6 (destruct signals as [| ? signals]; [reflexivity |]). reflexivity. }
  split; [exact E |].
  split; [reflexivity |].
  intros verificationKey. unfold RLN.verifyProof. cbn [RLN.publicSignals RLN.proof].
  rewrite E. reflexivity.
Qed.

End SignalCountFacts.

Lemma verifyProof_six_entries_witness :
  exists fullProof,
    RLN.genProof Z (fun _ _ _ => Ok (7, [RLN.Str "11"; RLN.Str "12"]))
      sample_witness "rln.wasm" "rln.zkey" = Ok fullProof
    /\ RLN.verifyProof_signals (RLN.publicSignals fullProof)
       = [Some (RLN.Str "11"); Some (RLN.Str "12"); None; None; None; None].
Proof.
  destruct (verifyProof_six_entries Z (fun _ _ _ => Ok (7, [RLN.Str "11"; RLN.Str "12"]))
              sample_verify sample_witness "rln.wasm" "rln.zkey" 7
              [RLN.Str "11"; RLN.Str "12"] eq_refl)
    as [fp [Hgen [Hsig _]]].
  exists fp. split; [exact Hgen | exact Hsig].
Defined.

(** ** The registry over a run of calls *)


Lemma same_configuration_refl r : same_configuration r r.
Proof.
  unfold same_configuration. split; [reflexivity |]. split; [reflexivity |].
  destruct (Registry._merkleTree r); [repeat split | exact I].
Qed.

Lemma same_configuration_trans r1 r2 r3 :
  same_configuration r1 r2 -> same_configuration r2 r3 -> same_configuration r1 r3.
Proof.
  unfold same_configuration. intros [Hd [Hz Ht]] [Hd' [Hz' Ht']].
  split; [congruence |]. split; [congruence |].
  destruct (Registry._merkleTree r1), (Registry._merkleTree r2),
    (Registry._merkleTree r3); try contradiction; [| exact I].
  destruct Ht as [? [? [? ?]]]. destruct Ht' as [? [? [? ?]]].
  repeat split; congruence.
Qed.

Lemma addMember_same_configuration r member :
  same_configuration r (Registry.addMember r member).1.
Proof.
  unfold Registry.addMember, Registry.tree.
  destruct (Registry._merkleTree r) as [tr |] eqn:Ht; simpl.
  - unfold IncrementalMerkleTree.insert.
    destruct (_ <=? _); simpl; [apply same_configuration_refl |].
    unfold same_configuration. simpl. rewrite Ht. repeat split.
  - apply same_configuration_refl.
Qed.

Lemma addMembers_same_configuration r members :
  same_configuration r (Registry.addMembers r members).1.
Proof.
  revert r. induction members as [| m ms IH]; intros r.
  - apply same_configuration_refl.
  - cbn [Registry.addMembers].
    pose proof (addMember_same_configuration r m) as H1.
    destruct (Registry.addMember r m) as [r' [[] | e]]; simpl in *.
    + apply (same_configuration_trans _ r'); [exact H1 | apply IH].
    + exact H1.
Qed.

Lemma removeMember_same_configuration r index :
  same_configuration r (Registry.removeMember r index).1.
Proof.
  unfold Registry.removeMember, Registry.tree.
  destruct (Registry._merkleTree r) as [tr |] eqn:Ht; simpl.
  - unfold IncrementalMerkleTree.delete.
    destruct (_ && _); simpl; [| apply same_configuration_refl].
    unfold same_configuration. simpl. rewrite Ht. repeat split.
  - apply same_configuration_refl.
Qed.

(** X11: no mutator touches the configuration.  After [addMember],
    [addMembers] or [removeMember], successful or not, the registry has the
    depth and zero value it had, is initialised exactly if it was, and its
    [depth] and [zeroValue] accessors answer as before. *)
Theorem mutators_keep_configuration (r : Registry.t) :
  forall r',
    (exists member, r' = (Registry.addMember r member).1)
    \/ (exists members, r' = (Registry.addMembers r members).1)
    \/ (exists index, r' = (Registry.removeMember r index).1) ->
    same_configuration r r'
    /\ Registry.depth r' = Registry.depth r
    /\ Registry.zeroValue r' = Registry.zeroValue r.
Proof.
  intros r' H.
  assert (Hc : same_configuration r r').
  { destruct H as [[m ->] | [[ms ->] | [i ->]]].
    - apply addMember_same_configuration.
    - apply addMembers_same_configuration.
    - apply removeMember_same_configuration. }
  split; [exact Hc |].
  destruct Hc as [_ [_ Ht]].
  unfold Registry.depth, Registry.zeroValue, Registry.tree.
  destruct (Registry._merkleTree r) as [tr |], (Registry._merkleTree r') as [tr' |];
    try contradiction; [| split; reflexivity].
  destruct Ht as [Hh [Hd [Hz _]]]. simpl.
  unfold IncrementalMerkleTree.zeroes. rewrite Hh, Hd, Hz. split; reflexivity.
Qed.

Lemma mutators_keep_configuration_witness :
  same_configuration sample_registry (Registry.removeMember sample_registry 1).1
  /\ Registry.depth (Registry.removeMember sample_registry 1).1 = Ok 16
  /\ Registry.zeroValue (Registry.removeMember sample_registry 1).1 = Ok (Some 0).
Proof.
  apply (mutators_keep_configuration sample_registry).
  right. right. exists 1. reflexivity.
Defined.

Lemma init_same_configuration poseidon r r' :
  same_configuration r r' -> Registry.init poseidon r' = Registry.init poseidon r.
Proof.
  intros [Hd [Hz _]]. unfold Registry.init. rewrite Hd, Hz. reflexivity.
Qed.

(** X12: [init] starts over.  It builds a new, empty tree from the depth
    and zero value alone, so calling it on a registry that already has
    members discards them all, and calling it twice is calling it once. *)
Theorem init_discards_members (poseidon : list Z -> Z) (r : Registry.t)
    (members : list Z) (index : Z) :
  Registry.init poseidon (Registry.addMembers r members).1 = Registry.init poseidon r
  /\ Registry.init poseidon (Registry.removeMember r index).1 = Registry.init poseidon r
  /\ Registry.init poseidon (Registry.init poseidon r) = Registry.init poseidon r
  /\ Registry.members
       (Registry.init poseidon (Registry.addMembers (Registry.init poseidon r) members).1)
     = Ok [].
Proof.
  split; [apply init_same_configuration, addMembers_same_configuration |].
  split; [apply init_same_configuration, removeMember_same_configuration |].
  split; reflexivity.
Qed.

(** ** Adding, finding and removing members *)

Lemma tree_of_members r old :
  Registry.members r = Ok old ->
  exists tr, Registry._merkleTree r = Some tr /\ IncrementalMerkleTree.leaves tr = old.
Proof.
  unfold Registry.members, Registry.tree.
  destruct (Registry._merkleTree r) as [tr |]; simpl; intros H; [| discriminate H].
  exists tr. split; [reflexivity | congruence].
Qed.

Lemma addMember_below_capacity r tr member :
  Registry._merkleTree r = Some tr ->
  Z.of_nat (length (IncrementalMerkleTree.leaves tr)) < IncrementalMerkleTree.capacity tr ->
  Registry.addMember r member
  = (Registry.set_tree r
       (IncrementalMerkleTree.with_leaves tr
          (IncrementalMerkleTree.leaves tr ++ [member])), Ok ()).
Proof.
  intros Ht Hc. unfold Registry.addMember, Registry.tree. rewrite Ht. simpl.
  unfold IncrementalMerkleTree.insert.
  destruct (Z.leb_spec (IncrementalMerkleTree.capacity tr)
              (Z.of_nat (length (IncrementalMerkleTree.leaves tr)))); [lia |].
  reflexivity.
Qed.

(** X13: a registry built by [init] takes [2^depth] members and no more.
    While fewer are held, [addMember] appends the new member after all
    existing ones, removed slots included; once [2^depth] are held it
    fails with CapacityExceeded and changes nothing. *)
Theorem addMember_appends_until_full (r : Registry.t)
    (tr : IncrementalMerkleTree.t) (old : list Z) (member : Z) :
  Registry._merkleTree r = Some tr ->
  IncrementalMerkleTree.arity tr = 2 ->
  Registry.members r = Ok old ->
  (Z.of_nat (length old) < 2 ^ IncrementalMerkleTree.depth tr ->
     (Registry.addMember r member).2 = Ok ()
     /\ Registry.members (Registry.addMember r member).1 = Ok (old ++ [member]))
  /\ (2 ^ IncrementalMerkleTree.depth tr <= Z.of_nat (length old) ->
        Registry.addMember r member = (r, Err CapacityExceeded)).
Proof.
  intros Ht Ha Hm.
  destruct (tree_of_members r old Hm) as [tr' [Ht' Hl]].
  assert (tr' = tr) as -> by congruence. subst old.
  split.
  - intros Hc.
    rewrite (addMember_below_capacity r tr member Ht)
      by (unfold IncrementalMerkleTree.capacity; rewrite Ha; exact Hc).
    split; reflexivity.
  - intros Hc. unfold Registry.addMember, Registry.tree. rewrite Ht. simpl.
    unfold IncrementalMerkleTree.insert, IncrementalMerkleTree.capacity. rewrite Ha.
    destruct (Z.leb_spec (2 ^ IncrementalMerkleTree.depth tr)
                (Z.of_nat (length (IncrementalMerkleTree.leaves tr)))); [| lia].
    reflexivity.
Qed.

Lemma addMember_appends_until_full_witness :
  (Registry.addMember sample_registry 44).2 = Ok ()
  /\ Registry.members (Registry.addMember sample_registry 44).1 = Ok ([11; 22; 33] ++ [44]).
Proof.
  refine (proj1 (addMember_appends_until_full sample_registry
                   (IncrementalMerkleTree.mk sample_hash 16 0 2 [11; 22; 33])
                   [11; 22; 33] 44 eq_refl eq_refl eq_refl) _).
  simpl. lia.
Defined.

(** Where the search of [indexOf] ends: at -1 when the member is absent
    and at the first slot holding it otherwise. *)
Lemma index_from_spec (m : Z) (l : list Z) (k : Z) :
  ((m ∉ l) /\ IncrementalMerkleTree.index_from m l k = -1)
  \/ (exists i : nat,
        l !! i = Some m
        /\ (forall j : nat, (j < i)%nat -> l !! j <> Some m)
        /\ IncrementalMerkleTree.index_from m l k = k + Z.of_nat i).
Proof.
  revert k. induction l as [| a l IH]; intros k.
  - left. split; [apply not_elem_of_nil | reflexivity].
  - cbn [IncrementalMerkleTree.index_from].
    destruct (Z.eqb_spec a m) as [-> | Hne].
    + right. exists 0%nat. split; [reflexivity |]. split; [intros j Hj; lia | lia].
    + destruct (IH (k + 1)) as [[Hnot E] | [i [Hi [Hmin E]]]].
      * left. split; [| exact E].
        intros Hin. apply elem_of_cons in Hin as [Heq | Hin]; [congruence | contradiction].
      * right. exists (S i). split; [exact Hi |]. split.
        -- intros [| j] Hj; simpl; [congruence | apply Hmin; lia].
        -- rewrite E. lia.
Qed.

(** X14: after a successful [addMember(member)], [indexOf(member)] is the
    first slot that holds the member.  It is the slot just filled exactly
    when the member was not in the registry before; for a commitment added
    a second time it is the older slot. *)
Theorem indexOf_after_addMember (r : Registry.t) (old : list Z) (member : Z) :
  Registry.members r = Ok old ->
  (Registry.addMember r member).2 = Ok () ->
  exists i : nat,
    Registry.indexOf (Registry.addMember r member).1 member = Ok (Z.of_nat i)
    /\ (old ++ [member]) !! i = Some member
    /\ (forall j : nat, (j < i)%nat -> (old ++ [member]) !! j <> Some member)
    /\ (i = length old <-> member ∉ old).
Proof.
  intros Hm Hadd.
  destruct (tree_of_members r old Hm) as [tr [Ht Hl]]. subst old.
  assert (Hr : (Registry.addMember r member).1
               = Registry.set_tree r
                   (IncrementalMerkleTree.with_leaves tr
                      (IncrementalMerkleTree.leaves tr ++ [member]))).
  { revert Hadd. unfold Registry.addMember, Registry.tree. rewrite Ht. simpl.
    unfold IncrementalMerkleTree.insert. destruct (_ <=? _); simpl.
    - discriminate.
    - reflexivity. }
  rewrite Hr. unfold Registry.indexOf, Registry.tree. simpl.
  unfold IncrementalMerkleTree.indexOf. simpl.
  set (old := IncrementalMerkleTree.leaves tr).
  destruct (index_from_spec member (old ++ [member]) 0)
    as [[Hnot _] | [i [Hi [Hmin E]]]].
  - exfalso. apply Hnot. apply elem_of_app. right. apply list_elem_of_singleton.
    reflexivity.
  - exists i. rewrite E. split; [f_equal; lia |].
    split; [exact Hi |]. split; [exact Hmin |].
    split.
    + intros -> Hin. apply list_elem_of_lookup in Hin as [j Hj].
      pose proof (lookup_lt_Some _ _ _ Hj) as Hlt.
      apply (Hmin j Hlt). rewrite lookup_app_l by exact Hlt. exact Hj.
    + intros Hnotin.
      pose proof (lookup_lt_Some _ _ _ Hi) as Hlt.
      rewrite length_app in Hlt. simpl in Hlt.
      destruct (decide (i = length old)) as [-> | Hne]; [reflexivity |].
      exfalso. apply Hnotin. apply list_elem_of_lookup. exists i.
      rewrite lookup_app_l in Hi by lia. exact Hi.
Qed.

Lemma indexOf_after_addMember_witness :
  exists i : nat,
    Registry.indexOf (Registry.addMember sample_registry 22).1 22 = Ok (Z.of_nat i)
    /\ ([11; 22; 33] ++ [22]) !! i = Some 22
    /\ (forall j : nat, (j < i)%nat -> ([11; 22; 33] ++ [22]) !! j <> Some 22)
    /\ (i = length [11; 22; 33] <-> 22 ∉ [11; 22; 33]).
Proof.
  apply (indexOf_after_addMember sample_registry [11; 22; 33] 22); reflexivity.
Defined.

Example indexOf_duplicate_sample :
  Registry.indexOf (Registry.addMember sample_registry 22).1 22 = Ok 1.
Proof. reflexivity. Qed.

(** X15: [removeMember] outside the occupied range.  For a negative index
    or one at or past the number of members held it fails with OutOfRange
    and leaves the registry as it was. *)
Theorem removeMember_outside (r : Registry.t) (old : list Z) (index : Z) :
  Registry.members r = Ok old ->
  index < 0 \/ Z.of_nat (length old) <= index ->
  Registry.removeMember r index = (r, Err OutOfRange).
Proof.
  intros Hm Hi.
  destruct (tree_of_members r old Hm) as [tr [Ht Hl]]. subst old.
  unfold Registry.removeMember, Registry.tree. rewrite Ht. simpl.
  unfold IncrementalMerkleTree.delete.
  destruct (Z.leb_spec 0 index) as [H0 | H0]; simpl; [| reflexivity].
  destruct (Z.ltb_spec index (Z.of_nat (length (IncrementalMerkleTree.leaves tr))))
    as [H1 | H1]; [lia | reflexivity].
Qed.

Lemma removeMember_outside_witness :
  Registry.removeMember sample_registry 3 = (sample_registry, Err OutOfRange).
Proof.
  apply (removeMember_outside sample_registry [11; 22; 33] 3).
  - reflexivity.
  - right. simpl. lia.
Defined.

(** X16: a removed slot is not used again, and removing it again changes
    nothing.  After [removeMember(index)] at an occupied index, a second
    [removeMember(index)] succeeds with the same members, and an
    [addMember(member)] puts the member after all slots, the zeroed one
    staying zero. *)
Theorem removed_slot_stays (r : Registry.t) (tr : IncrementalMerkleTree.t)
    (index member : Z) :
  Registry._merkleTree r = Some tr ->
  0 <= index < Z.of_nat (length (IncrementalMerkleTree.leaves tr)) ->
  let zeroed := <[Z.to_nat index := IncrementalMerkleTree.zeroValue tr]>
                  (IncrementalMerkleTree.leaves tr) in
  let r1 := (Registry.removeMember r index).1 in
  Registry.members r1 = Ok zeroed
  /\ (Registry.removeMember r1 index).2 = Ok ()
  /\ Registry.members (Registry.removeMember r1 index).1 = Ok zeroed
  /\ (Z.of_nat (length (IncrementalMerkleTree.leaves tr)) < IncrementalMerkleTree.capacity tr ->
        (Registry.addMember r1 member).2 = Ok ()
        /\ Registry.members (Registry.addMember r1 member).1 = Ok (zeroed ++ [member])).
Proof.
  intros Ht Hi zeroed r1.
  assert (Hin : (0 <=? index) && (index <? Z.of_nat (length (IncrementalMerkleTree.leaves tr)))
                = true).
  { apply andb_true_intro. split; [apply Z.leb_le | apply Z.ltb_lt]; lia. }
  assert (Hr1 : r1 = Registry.set_tree r (IncrementalMerkleTree.with_leaves tr zeroed)).
  { subst r1. unfold Registry.removeMember, Registry.tree. rewrite Ht. simpl.
    unfold IncrementalMerkleTree.delete. rewrite Hin. reflexivity. }
  assert (Hlen : length zeroed = length (IncrementalMerkleTree.leaves tr))
    by apply length_insert.
  rewrite Hr1.
  split; [reflexivity |].
  assert (Hagain : Registry.removeMember
                     (Registry.set_tree r (IncrementalMerkleTree.with_leaves tr zeroed))
                     index
                   = (Registry.set_tree r (IncrementalMerkleTree.with_leaves tr zeroed),
                      Ok ())).
  { unfold Registry.removeMember, Registry.tree. simpl.
    unfold IncrementalMerkleTree.delete. simpl. rewrite Hlen, Hin. simpl.
    unfold Registry.set_tree, IncrementalMerkleTree.with_leaves. simpl.
    subst zeroed. rewrite list_insert_insert_eq. reflexivity. }
  rewrite Hagain.
  split; [reflexivity |]. split; [reflexivity |].
  intros Hc.
  assert (Hadd := addMember_below_capacity
                    (Registry.set_tree r (IncrementalMerkleTree.with_leaves tr zeroed))
                    (IncrementalMerkleTree.with_leaves tr zeroed) member eq_refl).
  simpl in Hadd. rewrite Hlen in Hadd. rewrite (Hadd Hc).
  split; reflexivity.
Qed.

Lemma removed_slot_stays_witness :
  Registry.members (Registry.removeMember sample_registry 1).1 = Ok [11; 0; 33]
  /\ Registry.members
       (Registry.addMember (Registry.removeMember sample_registry 1).1 44).1
     = Ok [11; 0; 33; 44].
Proof.
  pose proof (removed_slot_stays sample_registry
                (IncrementalMerkleTree.mk sample_hash 16 0 2 [11; 22; 33]) 1 44
                eq_refl) as H.
  simpl in H. specialize (H ltac:(lia)).
  destruct H as [H1 [_ [_ H4]]].
  split; [exact H1 |].
  apply H4. reflexivity.
Defined.

(** X17: [indexOf(member)] answers -1 exactly when the member is in no
    slot, and otherwise the index of the first slot that holds it, an index
    inside the occupied range. *)
Theorem indexOf_first_or_minus_one (r : Registry.t) (old : list Z) (member : Z) :
  Registry.members r = Ok old ->
  exists i : Z,
    Registry.indexOf r member = Ok i
    /\ (i = -1 <-> member ∉ old)
    /\ (i <> -1 ->
          0 <= i < Z.of_nat (length old)
          /\ old !! Z.to_nat i = Some member
          /\ forall j : nat, (j < Z.to_nat i)%nat -> old !! j <> Some member).
Proof.
  intros Hm.
  destruct (tree_of_members r old Hm) as [tr [Ht Hl]]. subst old.
  unfold Registry.indexOf, Registry.tree. rewrite Ht. simpl.
  unfold IncrementalMerkleTree.indexOf.
  destruct (index_from_spec member (IncrementalMerkleTree.leaves tr) 0)
    as [[Hnot E] | [i [Hi [Hmin E]]]].
  - exists (-1). split; [f_equal; exact E |].
    split; [split; [intros _; exact Hnot | reflexivity] |].
    intros Hne. contradiction.
  - exists (Z.of_nat i). split; [f_equal; rewrite E; lia |].
    split.
    + split; [lia |]. intros Hnot. exfalso. apply Hnot.
      apply list_elem_of_lookup. exists i. exact Hi.
    + intros _. pose proof (lookup_lt_Some _ _ _ Hi) as Hlt.
      rewrite Nat2Z.id. split; [lia |]. split; [exact Hi | exact Hmin].
Qed.

Lemma indexOf_first_or_minus_one_witness :
  exists i : Z,
    Registry.indexOf sample_registry 33 = Ok i
    /\ (i = -1 <-> 33 ∉ [11; 22; 33])
    /\ (i <> -1 ->
          0 <= i < Z.of_nat (length [11; 22; 33])
          /\ [11; 22; 33] !! Z.to_nat i = Some 33
          /\ forall j : nat, (j < Z.to_nat i)%nat -> [11; 22; 33] !! j <> Some 33).
Proof.
  apply (indexOf_first_or_minus_one sample_registry [11; 22; 33] 33). reflexivity.
Defined.

(** X18: a removed member is not found any more.  If [member] sits at
    [index] and nowhere else and is not the zero value, then after
    [removeMember(index)] the answer of [indexOf(member)] is -1. *)
Theorem indexOf_after_removeMember (r : Registry.t) (tr : IncrementalMerkleTree.t)
    (index member : Z) :
  Registry._merkleTree r = Some tr ->
  0 <= index ->
  IncrementalMerkleTree.leaves tr !! Z.to_nat index = Some member ->
  (forall j : nat,
     j <> Z.to_nat index -> IncrementalMerkleTree.leaves tr !! j <> Some member) ->
  member <> IncrementalMerkleTree.zeroValue tr ->
  (Registry.removeMember r index).2 = Ok ()
  /\ Registry.indexOf (Registry.removeMember r index).1 member = Ok (-1).
Proof.
  intros Ht H0 Hat Honly Hnz.
  pose proof (lookup_lt_Some _ _ _ Hat) as Hlt.
  assert (Hin : (0 <=? index) && (index <? Z.of_nat (length (IncrementalMerkleTree.leaves tr)))
                = true).
  { apply andb_true_intro. split; [apply Z.leb_le | apply Z.ltb_lt]; lia. }
  unfold Registry.removeMember, Registry.tree. rewrite Ht. simpl.
  unfold IncrementalMerkleTree.delete. rewrite Hin. simpl.
  split; [reflexivity |].
  unfold Registry.indexOf, Registry.tree. simpl.
  unfold IncrementalMerkleTree.indexOf. simpl.
  destruct (index_from_spec member
              (<[Z.to_nat index := IncrementalMerkleTree.zeroValue tr]>
                 (IncrementalMerkleTree.leaves tr)) 0)
    as [[_ E] | [i [Hi _]]].
  - rewrite E. reflexivity.
  - exfalso. destruct (decide (i = Z.to_nat index)) as [-> | Hne].
    + rewrite list_lookup_insert_eq in Hi by exact Hlt. congruence.
    + rewrite list_lookup_insert_ne in Hi by congruence.
      exact (Honly i Hne Hi).
Qed.

Lemma indexOf_after_removeMember_witness :
  (Registry.removeMember sample_registry 1).2 = Ok ()
  /\ Registry.indexOf (Registry.removeMember sample_registry 1).1 22 = Ok (-1).
Proof.
  apply (indexOf_after_removeMember sample_registry
           (IncrementalMerkleTree.mk sample_hash 16 0 2 [11; 22; 33]) 1 22).
  - reflexivity.
  - lia.
  - reflexivity.
  - intros [| [| [| j]]] Hj; simpl; try discriminate. contradiction.
  - simpl. lia.
Defined.

(** ** Outputs and pending continuations *)

(** X19: with the handle set, the output does not depend on the process
    state.  However many continuations are pending and however many of
    them run at each [await], two calls with the same arguments return the
    same pair, whose [y] lies in [0, p). *)
Theorem calculateOutput_schedule_independent (p : Z) (buildPoseidon : list Z -> Z)
    k1 k2 k3 k1' k2' k3' st st' identitySecret epoch rlnIdentifier x :
  0 < p ->
  RLN._poseidon st = Some buildPoseidon ->
  RLN._poseidon st' = Some buildPoseidon ->
  exists y nullifier,
    (RLN.calculateOutput p buildPoseidon k1 k2 k3 st
       identitySecret epoch rlnIdentifier x).2 = Ok (y, nullifier)
    /\ (RLN.calculateOutput p buildPoseidon k1' k2' k3' st'
          identitySecret epoch rlnIdentifier x).2 = Ok (y, nullifier)
    /\ 0 <= y < p.
Proof.
  intros Hp H H'.
  exists ((buildPoseidon [identitySecret; epoch] * x + identitySecret) mod p),
    (buildPoseidon [buildPoseidon [identitySecret; epoch]; rlnIdentifier]).
  split; [apply calculateOutput_set; exact H |].
  split; [apply calculateOutput_set; exact H' |].
  apply Z.mod_pos_bound. exact Hp.
Qed.

Lemma calculateOutput_schedule_independent_witness :
  exists y nullifier,
    (RLN.calculateOutput 7 sample_hash 0 0 0 (RLN.mkState (Some sample_hash) 0)
       5 2 1 3).2 = Ok (y, nullifier)
    /\ (RLN.calculateOutput 7 sample_hash 2 1 3 (RLN.mkState (Some sample_hash) 4)
          5 2 1 3).2 = Ok (y, nullifier)
    /\ 0 <= y < 7.
Proof.
  apply (calculateOutput_schedule_independent 7 sample_hash 0 0 0 2 1 3
           (RLN.mkState (Some sample_hash) 0) (RLN.mkState (Some sample_hash) 4)
           5 2 1 3).
  - lia.
  - reflexivity.
  - reflexivity.
Defined.
